(** * succ: crawling a paginated catalog into a tag archive

    A shallow embedding of [succ/post.py] and [succ/main.py].

    - The tag knowledge database ([succ.db], one table
      [tags(tag text primary key, type int)]) is a finite map from tag
      names to tag types.
    - The remote API is an environment: what [/post/index.json] and
      [/tag/index.json] answer, and a finite script saying which of the
      coming requests fail (every failure carries the number that
      [random.uniform] draws for the retry that follows it).
    - Calls that leave the program (requests, sleeps, database commits,
      the three entry points of the tag archive) and the entries and exits
      of the semaphore are recorded in a trace.
    - [while True] loops take fuel; the recursion of a retry is structural
      in the script of failures, and the depth of the interpreter's stack
      is not counted.
    - Logging, [print] and the measuring of elapsed time are left out,
      but for the lines that [process_line] and [shutdown] log.

    The functions of the first part run one coroutine at a time, the tag
    fetchers of a post in the order of the list that holds them. The
    interleavings that [asyncio] allows between the tag fetchers, which
    share the database and the semaphore, are the subject of [Module Pool],
    built from the same atomic segments. The hash of a post as bytes and
    the client with its command line follow. *)

From Stdlib Require Import ZArith QArith Qround String Ascii List Lia.
From stdpp Require Import base gmap strings list pretty.

Open Scope Z_scope.

(** ** Python values *)

(** [s.split(sep)] for a separator of one character: empty fields are kept
    and the result is never empty. *)
Fixpoint split (sep : ascii) (s : string) : list string :=
  match s with
  | EmptyString => [EmptyString]
  | String c s' =>
      if Ascii.eqb c sep then EmptyString :: split sep s'
      else match split sep s' with
           | field :: fields => String c field :: fields
           | [] => [String c EmptyString]
           end
  end.

(** Round half to even, the rule of the builtin [round]. *)
Definition round_half_even (x : Q) : Z :=
  let f := Qfloor x in
  match Qcompare (x - inject_Z f) (1 # 2) with
  | Lt => f
  | Gt => f + 1
  | Eq => if Z.even f then f else f + 1
  end.

(** [round(x, ndigits)]; numbers are exact decimals here, the error of
    their binary representation is not modelled. *)
Definition py_round (x : Q) (ndigits : Z) : Q :=
  Qmake (round_half_even (x * inject_Z (10 ^ ndigits))) (Z.to_pos (10 ^ ndigits)).



Inductive exn := IntegrityError | IndexError | ValueError.

Inductive result (A : Type) :=
| Ok (a : A)
| Raise (e : exn).
Arguments Ok {A} a.
Arguments Raise {A} e.

(** The result of a loop that may go on for ever. *)
Inductive outcome (A : Type) :=
| Done (r : result A)
| OutOfFuel.
Arguments Done {A} r.
Arguments OutOfFuel {A}.

(** ** post.py *)

Record TagData := _wrap { name : string; tag_type : Z }.

(** One entry of the answer of [/post/index.json]. *)
Record RawPost := {
  raw_id : Z;
  raw_tags_str : string;
  raw_created_at : Z;
  raw_md5 : string;
  raw_file_url : string;
  raw_author : string
}.

Record Post := {
  post_id : Z;
  post_raw_tags : list string;
  post_tags : list string;
  post_timestamp : Z;
  post_hash : string;
  post_url : string;
  post_author : string
}.

(** [Post.__init__] *)
Definition Post_init (data : RawPost) : Post :=
  {| post_id := raw_id data;
     post_raw_tags := split " " (raw_tags_str data);
     post_tags := split " " (raw_tags_str data);
     post_timestamp := raw_created_at data;
     post_hash := raw_md5 data;
     post_url := raw_file_url data;
     post_author := raw_author data |}.

(** [Post.tag_add] *)
Definition tag_add (post : Post) (tag : string) : Post :=
  {| post_id := post_id post;
     post_raw_tags := post_raw_tags post;
     post_tags := post_tags post ++ [tag];
     post_timestamp := post_timestamp post;
     post_hash := post_hash post;
     post_url := post_url post;
     post_author := post_author post |}.

(** The two requests the program makes. *)
Inductive Route :=
| PostIndex (page : Z)
| TagIndex (tag : string).

Definition route_path (r : Route) : string :=
  match r with
  | PostIndex page => "/post/index.json?page=" ++ pretty page ++ "&limit=200"
  | TagIndex tag => "/tag/index.json?name=" ++ tag ++ "&limit=0"
  end.

Inductive Event :=
| Call (r : Route)
| Sleep (seconds : Q)
| Acquire
| Release
| DbCommit
| BeginBigJob
| AddMappings (hash : string) (tags : list string)
| CommitBigJob.

(** What the remote does with one request: [Fails u] is an
    [aiohttp.ClientError] or a status other than 200, and [u] the number
    drawn for the retry. *)
Inductive Reply :=
| Fails (u : Q)
| Succeeds.

(** [db] is the table [tags]; [faults] the replies to the coming requests,
    all of them successes once the script is used up. *)
Record World := {
  db : gmap string Z;
  faults : list Reply;
  trace : list Event
}.

Definition emit (e : Event) (w : World) : World :=
  {| db := db w; faults := faults w; trace := trace w ++ [e] |}.

(** [select type from tags where tag=?] followed by [fetchone()] *)
Definition select_type (d : gmap string Z) (tag : string) : option Z := d !! tag.

(** [insert into tags (tag, type) values (?, ?)]: the primary key refuses a
    second row for a tag. *)
Definition insert_tag (d : gmap string Z) (tag : string) (type : Z)
  : result (gmap string Z) :=
  match d !! tag with
  | Some _ => Raise IntegrityError
  | None => Ok (<[tag := type]> d)
  end.

(** The first loop of [_fetch] over the answer: every record is inserted,
    an [IntegrityError] is caught and the loop goes on. *)
Fixpoint learn (results : list TagData) (d : gmap string Z)
  : result (gmap string Z) * gmap string Z :=
  match results with
  | [] => (Ok d, d)
  | tag_data :: rest =>
      match insert_tag d (name tag_data) (tag_type tag_data) with
      | Ok d' => learn rest d'
      | Raise IntegrityError => learn rest d
      | Raise e => (Raise e, d)
      end
  end.

(** The second loop: the first record whose name is the tag asked for. *)
Fixpoint find_exact (tag : string) (results : list TagData) : option TagData :=
  match results with
  | [] => None
  | tag_data :: rest =>
      if String.eqb (name tag_data) tag
      then Some (_wrap (name tag_data) (tag_type tag_data))
      else find_exact tag rest
  end.

(** [retry = round(random.uniform(0.5, 2.5), 3)] in [TagFetcher._fetch] *)
Definition tag_retry (u : Q) : Q := py_round u 3.

(** [retry = round(random.uniform(0.5, 2.5), 2)] in [SuccMain.fetch_page] *)
Definition page_retry (u : Q) : Q := py_round u 2.

(** What the program is run against: the answers of the remote API, and
    the constants of [succ/consts.py], which is not among the sources at
    hand. *)
Class Env := {
  post_index : Z → list RawPost;
  tag_index : string → list TagData;
  NAMESPACES : gmap Z string;
  GENERAL : Z
}.

Section Succ.

Context {env : Env}.

(** [_fetch] from the answer of the API to its end; nothing in it awaits.
    The database is returned also when an exception leaves the function. *)
Definition on_results (tag : string) (results : list TagData) (d : gmap string Z)
  : result TagData * gmap string Z :=
  match learn results d with
  | (Raise e, d1) => (Raise e, d1)
  | (Ok _, d1) =>
      match find_exact tag results with
      | Some tag_data => (Ok tag_data, d1)
      | None =>
          match insert_tag d1 tag GENERAL with
          | Ok d2 => (Ok (_wrap tag GENERAL), d2)
          | Raise e => (Raise e, d1)
          end
      end
  end.

(** [TagFetcher._fetch]. [hh_req] is the [Call] and the reply that the
    script holds for it; a failed request sleeps and calls [_fetch] again,
    which starts with the lookup in the database. *)
Fixpoint _fetch_from (tag : string) (fs : list Reply) (d : gmap string Z)
    (tr : list Event) {struct fs} : result TagData * World :=
  match select_type d tag with
  | Some type =>
      (Ok (_wrap tag type), {| db := d; faults := fs; trace := tr |})
  | None =>
      let tr := tr ++ [Call (TagIndex tag)] in
      match fs with
      | Fails u :: fs' =>
          _fetch_from tag fs' d (tr ++ [Sleep (tag_retry u)])
      | _ =>
          let (r, d') := on_results tag (tag_index tag) d in
          (r, {| db := d'; faults := tl fs; trace := tr |})
      end
  end.

Definition _fetch (tag : string) (w : World) : result TagData * World :=
  _fetch_from tag (faults w) (db w) (trace w).

(** A [TagFetcher] with its [tag] and its [result]; [succ] and [cur] are
    the one program and a cursor of its one database connection. *)
Record TagFetcher := {
  tf_tag : string;
  tf_result : option TagData
}.

(** [TagFetcher.__init__] *)
Definition TagFetcher_init (tag : string) : TagFetcher :=
  {| tf_tag := tag; tf_result := None |}.

(** [TagFetcher.fetch], run to its end inside
    [async with self.succ.tagfetch_semaphore]. An exception of [_fetch]
    stays in the task that ran the coroutine and [result] keeps its
    [None]. *)
Definition fetch (tf : TagFetcher) (w : World) : TagFetcher * World :=
  match _fetch (tf_tag tf) (emit Acquire w) with
  | (Ok tag_data, w') =>
      ({| tf_tag := tf_tag tf; tf_result := Some tag_data |}, emit Release w')
  | (Raise _, w') => (tf, emit Release w')
  end.

(** [asyncio.wait(_coros)], one coroutine after the other. *)
Fixpoint wait (tag_fetchers : list TagFetcher) (w : World)
  : list TagFetcher * World :=
  match tag_fetchers with
  | [] => ([], w)
  | tf :: rest =>
      let (tf', w1) := fetch tf w in
      let (rest', w2) := wait rest w1 in
      (tf' :: rest', w2)
  end.

(** ** main.py *)

(** The fetchers that [fetch_page] creates for a post. *)
Definition tag_fetchers_of (post : Post) : list TagFetcher :=
  map TagFetcher_init (post_raw_tags post).

(** One round of the last loop over the fetchers of a post. *)
Definition add_resolved (post : Post) (tagfetcher : TagFetcher) : Post :=
  match tf_result tagfetcher with
  | None => post
  | Some tag_data =>
      match NAMESPACES !! tag_type tag_data with
      | Some namespace =>
          if String.eqb namespace "" then post
          else tag_add post (namespace ++ name tag_data)
      | None => post
      end
  end.

(** The four tags that do not come from the API. *)
Definition add_fixed_tags (post : Post) : Post :=
  let post := tag_add post "hypnosis" in
  let post := tag_add post "booru:hypnohub" in
  let post := tag_add post ("md5:" ++ post_hash post) in
  tag_add post ("id:" ++ pretty (post_id post)).

(** The body of [for rawpost in res] in [fetch_page]. *)
Definition process_rawpost (rawpost : RawPost) (w : World) : Post * World :=
  let post := add_fixed_tags (Post_init rawpost) in
  let (tag_fetchers, w1) := wait (tag_fetchers_of post) w in
  (foldl add_resolved post tag_fetchers, emit DbCommit w1).

Fixpoint process_res (res : list RawPost) (w : World) : list Post * World :=
  match res with
  | [] => ([], w)
  | rawpost :: rest =>
      let (post, w1) := process_rawpost rawpost w in
      let (posts, w2) := process_res rest w1 in
      (post :: posts, w2)
  end.

(** [SuccMain.fetch_page]: the request with its retries, then the posts. *)
Fixpoint fetch_page_from (page : Z) (fs : list Reply) (d : gmap string Z)
    (tr : list Event) {struct fs} : list Post * World :=
  let tr := tr ++ [Call (PostIndex page)] in
  match fs with
  | Fails u :: fs' =>
      fetch_page_from page fs' d (tr ++ [Sleep (page_retry u)])
  | _ =>
      let (posts, w) :=
        process_res (post_index page) {| db := d; faults := tl fs; trace := tr |} in
      (posts, emit DbCommit w)
  end.

Definition fetch_page (page : Z) (w : World) : list Post * World :=
  fetch_page_from page (faults w) (db w) (trace w).

(** [asyncio.wait] over one [fetch_page] per page and the loop over
    [done]: one page after the other, gathered in the order of the pages
    (the set [done] fixes no order). *)
Fixpoint gather_pages (pages : list Z) (w : World) : list Post * World :=
  match pages with
  | [] => ([], w)
  | page :: rest =>
      let (data, w1) := fetch_page page w in
      let (posts, w2) := gather_pages rest w1 in
      (data ++ posts, w2)
  end.

(** [SuccMain.fetch_pages] over [range(start, end + 1)]; [asyncio.wait]
    refuses an empty set. *)
Definition fetch_pages (start end_ : Z) (w : World) : result (list Post) * World :=
  match seqZ start (end_ + 1 - start) with
  | [] => (Raise ValueError, w)
  | pages => let (posts, w') := gather_pages pages w in (Ok posts, w')
  end.

(** [SuccMain.process_hta]; the archive receives [post.bhash], the bytes
    that [post.hash] spells in hexadecimal, recorded here by that spelling.
    [listid] only labels a line of the log. *)
Definition process_hta (posts : list Post) (w : World) : World :=
  let w := emit BeginBigJob w in
  let w := foldl (λ w post, emit (AddMappings (post_hash post) (post_tags post)) w)
                 w posts in
  emit CommitBigJob w.

(** [SuccMain.c_fetch_latest] *)
Definition c_fetch_latest (w : World) : World :=
  let (posts, w1) := fetch_page 0 w in
  process_hta posts w1.

(** [SuccMain.c_fetch_pages] *)
Definition c_fetch_pages (start end_ : Z) (w : World) : result unit * World :=
  match fetch_pages start end_ w with
  | (Ok data, w1) => (Ok tt, process_hta data w1)
  | (Raise e, w1) => (Raise e, w1)
  end.

(** The [while True] of [c_fetch_until]: [Some final_posts] at [break],
    [None] when the fuel is used up. *)
Fixpoint fetch_until_loop (fuel : nat) (until_id page : Z)
    (final_posts : list Post) (w : World) : option (list Post) * World :=
  match fuel with
  | O => (None, w)
  | S fuel' =>
      let (posts, w1) := fetch_page page w in
      let wanted := filter (λ post, post_id post >= until_id) posts in
      let unwanted := filter (λ post, post_id post < until_id) posts in
      let final_posts := final_posts ++ wanted in
      match unwanted with
      | _ :: _ => (Some final_posts, w1)
      | [] => fetch_until_loop fuel' until_id (page + 1) final_posts w1
      end
  end.

(** [SuccMain.c_fetch_until], [until_id] being [int(args[1])]. *)
Definition c_fetch_until (fuel : nat) (until_id : Z) (w : World)
  : outcome unit * World :=
  match fetch_until_loop fuel until_id 0 [] w with
  | (None, w1) => (OutOfFuel, w1)
  | (Some final_posts, w1) =>
      match final_posts with
      | [] => (Done (Raise IndexError), w1)
      | first :: _ => (Done (Ok tt), process_hta final_posts w1)
      end
  end.

Definition page_continue : Z := 3.

(** The [while True] of [c_fetch_all]. [fetch_page] catches [HHApiError]
    itself, so the handler around [fetch_pages] is never entered. *)
Fixpoint fetch_all_loop (fuel : nat) (i : Z) (w : World) : outcome unit * World :=
  match fuel with
  | O => (OutOfFuel, w)
  | S fuel' =>
      match fetch_pages i (i + page_continue) w with
      | (Raise e, w1) => (Done (Raise e), w1)
      | (Ok [], w1) => (Done (Ok tt), w1)
      | (Ok data, w1) =>
          let w2 := process_hta data w1 in
          fetch_all_loop fuel' (i + page_continue + 1) (emit (Sleep 2) w2)
      end
  end.

(** [SuccMain.c_fetch_all] *)
Definition c_fetch_all (fuel : nat) (w : World) : outcome unit * World :=
  fetch_all_loop fuel 0 w.

End Succ.

(** ** The tag fetchers as cooperating coroutines

    Between two [await]s a coroutine runs alone. A [TagFetcher.fetch] is
    cut at its awaits: the entry of [async with self.succ.tagfetch_semaphore],
    the request of [hh_req] and [asyncio.sleep]. All fetchers of the
    program share the semaphore and the database connection. *)
Module Pool.

Inductive phase :=
| Created                        (* not yet inside [async with] *)
| Entered                        (* inside, about to run [_fetch] *)
| Awaiting                       (* inside, its request sent *)
| Sleeping (seconds : Q)         (* inside, in [asyncio.sleep(retry)] *)
| Finished (tag_data : TagData)  (* left [async with], [self.result] set *)
| Failed (e : exn).              (* left [async with] by an exception *)

Record task := { tag : string; at_ : phase }.

Record state := {
  permits : nat;
  store : gmap string Z;
  tasks : list task
}.

(** [self.tagfetch_semaphore = asyncio.Semaphore(3)] *)
Definition capacity : nat := 3.

Definition init (tags : list string) (d : gmap string Z) : state :=
  {| permits := capacity; store := d;
     tasks := map (λ t, {| tag := t; at_ := Created |}) tags |}.

(** What wakes a coroutine up: the event loop, the answer to its request,
    or the failure of its request with the number drawn for the retry. *)
Inductive input :=
| Go
| Response (results : list TagData)
| Error (u : Q).

Section Steps.

Context {env : Env}.

(** One atomic segment of [fetch]: the new phase, the permits and the
    database it leaves. [__aexit__] gives the permit back on both ways
    out of [async with]. *)
Definition resume (t : task) (inp : input) (s : state)
  : option (phase * nat * gmap string Z) :=
  match at_ t, inp with
  | Created, Go =>
      match permits s with
      | S n => Some (Entered, n, store s)
      | O => None
      end
  | Entered, Go =>
      match select_type (store s) (tag t) with
      | Some type => Some (Finished (_wrap (tag t) type), S (permits s), store s)
      | None => Some (Awaiting, permits s, store s)
      end
  | Awaiting, Error u => Some (Sleeping (tag_retry u), permits s, store s)
  | Awaiting, Response results =>
      match on_results (tag t) results (store s) with
      | (Ok tag_data, d) => Some (Finished tag_data, S (permits s), d)
      | (Raise e, d) => Some (Failed e, S (permits s), d)
      end
  | Sleeping _, Go => Some (Entered, permits s, store s)
  | _, _ => None
  end.

Definition run1 (i : nat) (inp : input) (s : state) : option state :=
  match tasks s !! i with
  | None => None
  | Some t =>
      match resume t inp s with
      | None => None
      | Some (p, n, d) =>
          Some {| permits := n; store := d;
                  tasks := <[i := {| tag := tag t; at_ := p |}]> (tasks s) |}
      end
  end.

Definition step (s s' : state) : Prop :=
  ∃ i inp, run1 i inp s = Some s'.

Fixpoint run (schedule : list (nat * input)) (s : state) : option state :=
  match schedule with
  | [] => Some s
  | (i, inp) :: rest =>
      match run1 i inp s with
      | Some s' => run rest s'
      | None => None
      end
  end.

End Steps.

Definition holds (p : phase) : bool :=
  match p with
  | Entered | Awaiting | Sleeping _ => true
  | _ => false
  end.

Definition awaits (p : phase) : bool :=
  match p with
  | Awaiting => true
  | _ => false
  end.

(** Out of [async with], with a result or with an exception. *)
Definition left (p : phase) : bool :=
  match p with
  | Finished _ | Failed _ => true
  | _ => false
  end.

Definition count (f : phase → bool) (ts : list task) : nat :=
  length (List.filter (λ t, f (at_ t)) ts).

(** The fetchers inside [async with], and those whose request is out. *)
Definition inside (s : state) : nat := count holds (tasks s).
Definition in_flight (s : state) : nat := count awaits (tasks s).


End Pool.

(** ** Reading a trace *)

(** The pages asked of [/post/index.json], one entry per request. *)
Definition page_calls (tr : list Event) : list Z :=
  tr ≫= λ e, match e with Call (PostIndex page) => [page] | _ => [] end.

Definition is_sink (e : Event) : bool :=
  match e with
  | BeginBigJob | AddMappings _ _ | CommitBigJob => true
  | _ => false
  end.

(** What the tag archive has been told. *)
Definition sink_events (tr : list Event) : list Event := List.filter is_sink tr.


(** The entries into the semaphore: one for every call of [fetch]. *)
Definition acquires (tr : list Event) : nat :=
  length (List.filter (λ e, match e with Acquire => true | _ => false end) tr).

(** What a piece of trace shows of pages, of the archive and of the
    semaphore. *)
Definition shows (ext : list Event) (pages : list Z) (sink : list Event) (n : nat) : Prop :=
  page_calls ext = pages ∧ sink_events ext = sink ∧ acquires ext = n.

Section Shapes.

Context {env : Env}.

(** A known namespace in front of some name. *)
Definition namespaced (t : string) : Prop :=
  ∃ (type : Z) (namespace tag_name : string),
    NAMESPACES !! type = Some namespace ∧ t = (namespace ++ tag_name)%string.

(** What [fetch_page] makes of one entry of the answer. *)
Definition built_from (rawpost : RawPost) (post : Post) : Prop :=
  post_id post = raw_id rawpost
  ∧ post_hash post = raw_md5 rawpost
  ∧ post_raw_tags post = split " " (raw_tags_str rawpost)
  ∧ ∃ resolved : list string,
      post_tags post =
        split " " (raw_tags_str rawpost)
        ++ ["hypnosis"; "booru:hypnohub"; ("md5:" ++ raw_md5 rawpost)%string;
            ("id:" ++ pretty (raw_id rawpost))%string]
        ++ resolved
      ∧ Forall namespaced resolved.

(** The ids on a page of the catalog. *)
Definition page_ids (page : Z) : list Z := map raw_id (post_index page).



End Shapes.

(** The requests for a list of pages made one page after the other, the
    page at position [i] asked for again [retries !! i] times. *)
Definition requests (retries : list nat) (pages : list Z) : list Z :=
  concat (zip_with (λ n page, replicate (S n) page) retries pages).

(** ** Companions of the builtins *)

(** [sep.join(fields)] *)
Fixpoint join (sep : ascii) (fields : list string) : string :=
  match fields with
  | [] => EmptyString
  | [field] => field
  | field :: rest => (field ++ String sep (join sep rest))%string
  end.

(** [s.count(c)] for one character. *)
Fixpoint occurrences (c : ascii) (s : string) : nat :=
  match s with
  | EmptyString => 0
  | String c' s' => (if Ascii.eqb c' c then 1 else 0) + occurrences c s'
  end.

(** The tags asked of [/tag/index.json], one entry per request. *)
Definition tag_calls (tr : list Event) : list string :=
  tr ≫= λ e, match e with Call (TagIndex tag) => [tag] | _ => [] end.

(** From [w] to [w']: the database has only grown, and the requests for
    tags made on the way were all for [allowed] tags. *)
Definition extends (allowed : string → Prop) (w w' : World) : Prop :=
  db w ⊆ db w'
  ∧ ∃ ext, trace w' = trace w ++ ext ∧ Forall allowed (tag_calls ext).

Section Enrichment.

Context {env : Env}.

(** The tag that the last loop of [fetch_page] adds for a raw tag, given
    the type its fetcher came back with, if it came back with one. *)
Definition namespaced_tag (tag : string) (type : option Z) : list string :=
  match type with
  | None => []
  | Some type =>
      match NAMESPACES !! type with
      | Some namespace =>
          if String.eqb namespace "" then [] else [(namespace ++ tag)%string]
      | None => []
      end
  end.

(** The raw tags of the posts on a page. *)
Definition page_tags (page : Z) : list string :=
  post_index page ≫= λ rawpost, split " " (raw_tags_str rawpost).

End Enrichment.

(** ** The hash as bytes *)

(** The value of a hexadecimal digit, of either case. *)
Definition hex_digit (c : ascii) : option N :=
  let n := N_of_ascii c in
  if (48 <=? n)%N && (n <=? 57)%N then Some (n - 48)%N
  else if (97 <=? n)%N && (n <=? 102)%N then Some (n - 87)%N
  else if (65 <=? n)%N && (n <=? 70)%N then Some (n - 55)%N
  else None.

(** [codecs.decode(s, 'hex')], which is [binascii.a2b_hex]: two digits to
    a byte; an odd number of characters or a character that is no digit
    is an error. *)
Fixpoint unhexlify (s : string) : option (list N) :=
  match s with
  | EmptyString => Some []
  | String _ EmptyString => None
  | String c1 (String c2 rest) =>
      match hex_digit c1, hex_digit c2, unhexlify rest with
      | Some high, Some low, Some bytes => Some ((16 * high + low)%N :: bytes)
      | _, _, _ => None
      end
  end.

(** [Post.bhash]; [binascii.Error] is a [ValueError]. *)
Definition bhash (post : Post) : result (list N) :=
  match unhexlify (post_hash post) with
  | Some bytes => Ok bytes
  | None => Raise ValueError
  end.

(** The lower-case spelling of bytes that [hexdigest] and [bytes.hex]
    give. *)
Definition hex_char (n : N) : ascii :=
  ascii_of_N (if (n <? 10)%N then n + 48 else n + 87)%N.

Fixpoint hexlify (bytes : list N) : string :=
  match bytes with
  | [] => EmptyString
  | byte :: rest =>
      String (hex_char (byte / 16)%N) (String (hex_char (byte mod 16)%N) (hexlify rest))
  end.

(** The loop of [process_hta] with [post.bhash] evaluated: a hash that
    does not decode raises before its [AddMappings]. *)
Fixpoint add_mappings (posts : list Post) (w : World) : result unit * World :=
  match posts with
  | [] => (Ok tt, w)
  | post :: rest =>
      match bhash post with
      | Ok _ => add_mappings rest (emit (AddMappings (post_hash post) (post_tags post)) w)
      | Raise e => (Raise e, w)
      end
  end.

(** [SuccMain.process_hta] with [post.bhash] evaluated. *)
Definition process_hta_decoding (posts : list Post) (w : World) : result unit * World :=
  match add_mappings posts (emit BeginBigJob w) with
  | (Ok _, w1) => (Ok tt, emit CommitBigJob w1)
  | (Raise e, w1) => (Raise e, w1)
  end.

(** ** The client and its command line *)

(** What a handler can raise: an exception of the crawls, the
    [UnboundLocalError] of a name that was never bound, or
    [ShutdownClient] of [succ/errors.py], taken as a plain exception
    class that keeps its argument. *)
Inductive raised :=
| Exception (e : exn)
| UnboundLocalError
| ShutdownClient (status : Z).

(** The lines that [process_line] and [shutdown] write to the log as
    warnings or errors. *)
Inductive LogLine :=
| ShutdownTwice
| CommandNotFound (command : string)
| ErrorExecuting (r : raised).

Record Client := {
  world : World;
  _running : bool;
  session_open : bool;
  log : list LogLine
}.

(** The client after [SuccMain.__init__]. *)
Definition new_client (w : World) : Client :=
  {| world := w; _running := false; session_open := true; log := [] |}.

(** [SuccMain.is_running] *)
Definition is_running (c : Client) : bool := _running c.

(** [SuccMain.init]; the table is there already in a database that is a
    map. *)
Definition init (c : Client) : Client :=
  {| world := world c; _running := true; session_open := session_open c; log := log c |}.

Definition with_world (w : World) (c : Client) : Client :=
  {| world := w; _running := _running c; session_open := session_open c; log := log c |}.

Definition add_log (l : LogLine) (c : Client) : Client :=
  {| world := world c; _running := _running c; session_open := session_open c;
     log := log c ++ [l] |}.

(** How a call of [process_line] ends: it returns, [sys.exit] ends the
    process, or a loop inside is still going when the fuel is used up. *)
Inductive line_outcome :=
| Returned
| Exited (code : Z)
| Unfinished.

(** [SuccMain.shutdown] *)
Definition shutdown (code : Z) (c : Client) : line_outcome * Client :=
  if _running c
  then (Exited code,
        {| world := emit DbCommit (world c); _running := false;
           session_open := false; log := log c |})
  else (Returned, add_log ShutdownTwice c).

Section CommandLine.

Context {env : Env}.

(** The builtin [int] on a string: the number it spells, if it spells
    one. *)
Variable py_int : string → option Z.

(** [int(args[i])]: [IndexError] without the argument, [ValueError] when
    it is no number. *)
Definition int_arg (args : list string) (i : nat) : result Z :=
  match args !! i with
  | None => Raise IndexError
  | Some arg =>
      match py_int arg with
      | Some n => Ok n
      | None => Raise ValueError
      end
  end.

(** [SuccMain.c_exit]: the status that its [ShutdownClient] carries. Any
    failure to read it gives 0. *)
Definition c_exit (args : list string) : Z :=
  match int_arg args 1 with
  | Ok status => status
  | Raise _ => 0
  end.

(** [SuccMain.c_quit] *)
Definition c_quit (args : list string) : Z := c_exit args.

(** [SuccMain.c_commit] *)
Definition c_commit (w : World) : World := emit DbCommit w.

(** [SuccMain.c_loop] *)
Fixpoint c_loop (fuel : nat) (w : World) : outcome unit * World :=
  match fuel with
  | O => (OutOfFuel, w)
  | S fuel' =>
      match c_fetch_all fuel w with
      | (Done (Ok _), w1) => c_loop fuel' (emit (Sleep 300) w1)
      | (r, w1) => (r, w1)
      end
  end.

(** What calling a handler comes to. *)
Inductive handled :=
| Normal
| Raises (r : raised)
| Going.

Definition of_outcome (r : outcome unit * World) : handled * World :=
  match r with
  | (Done (Ok _), w) => (Normal, w)
  | (Done (Raise e), w) => (Raises (Exception e), w)
  | (OutOfFuel, w) => (Going, w)
  end.

(** [getattr(self, f'c_{command}')] applied to [args]; [None] is the
    [AttributeError] of a name that is no handler. *)
Definition handler (fuel : nat) (command : string) (args : list string) (w : World)
  : option (handled * World) :=
  if String.eqb command "exit" then Some (Raises (ShutdownClient (c_exit args)), w)
  else if String.eqb command "quit" then Some (Raises (ShutdownClient (c_quit args)), w)
  else if String.eqb command "commit" then Some (Normal, c_commit w)
  else if String.eqb command "fetch_latest" then Some (Normal, c_fetch_latest w)
  else if String.eqb command "fetch_pages" then
    Some match int_arg args 1 with
         | Raise e => (Raises (Exception e), w)
         | Ok start =>
             match int_arg args 2 with
             | Raise e => (Raises (Exception e), w)
             | Ok end_ =>
                 match c_fetch_pages start end_ w with
                 | (Ok _, w1) => (Normal, w1)
                 | (Raise e, w1) => (Raises (Exception e), w1)
                 end
             end
         end
  else if String.eqb command "fetch_until" then
    Some match int_arg args 1 with
         | Raise e => (Raises (Exception e), w)
         | Ok until_id => of_outcome (c_fetch_until fuel until_id w)
         end
  else if String.eqb command "fetch_all" then Some (of_outcome (c_fetch_all fuel w))
  else if String.eqb command "loop" then Some (of_outcome (c_loop fuel w))
  else None.

(** [SuccMain.process_line]. A command that is not found is logged and
    the call of the unbound [handler] then raises inside the second
    [try], whose last clause logs every [Exception]. *)
Definition process_line (fuel : nat) (line : string) (c : Client)
  : line_outcome * Client :=
  let args := split " " line in
  let command := hd EmptyString args in
  match handler fuel command args (world c) with
  | None =>
      (Returned,
       add_log (ErrorExecuting UnboundLocalError) (add_log (CommandNotFound command) c))
  | Some (Normal, w) => (Returned, with_world w c)
  | Some (Going, w) => (Unfinished, with_world w c)
  | Some (Raises (ShutdownClient status), w) => shutdown status (with_world w c)
  | Some (Raises r, w) => (Returned, add_log (ErrorExecuting r) (with_world w c))
  end.

End CommandLine.

(** A reader of numbers for the examples: the decimal spelling that
    [pretty] writes, and nothing else. *)
Definition demo_int (s : string) : option Z :=
  List.find (λ n, String.eqb (pretty n) s) (seqZ (-200) 401).

(** ** A remote to run the program against *)

(** Two pages of posts, a tag index that answers by prefix, and the tag
    types and namespaces in the manner of the original. *)
Definition demo_post (id : Z) (tags md5 : string) : RawPost :=
  {| raw_id := id; raw_tags_str := tags; raw_created_at := 1500000000;
     raw_md5 := md5; raw_file_url := "https://example.org/image.png";
     raw_author := "someone" |}.

Definition demo_env : Env :=
  {| post_index := λ page,
       if decide (page = 0)
       then [demo_post 12 "ab a a" "d41d8cd98f00b204e9800998ecf8427e";
             demo_post 11 "abc" "0cc175b9c0f1b6a831c399e269772661"]
       else if decide (page = 1)
       then [demo_post 10 "ab" "900150983cd24fb0d6963f7d28e17f72"]
       else [];
     tag_index := λ tag,
       if String.prefix tag "abc" then [_wrap "ab" 4; _wrap "abc" 1] else [];
     NAMESPACES := {[ 1 := "creator:"; 3 := "series:"; 4 := "character:" ]};
     GENERAL := 0 |}.

(** A catalog of two pages with descending ids, 100 down to 91 and 90
    down to 81, and a tag index that knows nothing. *)
Definition boundary_env : Env :=
  {| post_index := λ page,
       if decide (page = 0)
       then (λ i, demo_post (100 - i) "solo" "d41d8cd98f00b204e9800998ecf8427e")
              <$> seqZ 0 10
       else if decide (page = 1)
       then (λ i, demo_post (90 - i) "solo" "d41d8cd98f00b204e9800998ecf8427e")
              <$> seqZ 0 10
       else [];
     tag_index := λ _, [];
     NAMESPACES := ∅;
     GENERAL := 0 |}.

(** An empty database and a remote that does not fail. *)
Definition cold : World := {| db := ∅; faults := []; trace := [] |}.

(** A database that knows one tag and a remote that fails twice. *)
Definition flaky : World :=
  {| db := {[ "b" := 0 ]};
     faults := [Fails (7 # 10); Fails (2 # 1)];
     trace := [] |}.

(** Ten fetchers for ten tags. *)
Definition ten_tags : list string :=
  ["t0"; "t1"; "t2"; "t3"; "t4"; "t5"; "t6"; "t7"; "t8"; "t9"].

(** Three of ten fetchers on an empty database have entered and sent their
    requests; the fourth cannot enter. *)
Definition three_out : list (nat * Pool.input) :=
  [(0%nat, Pool.Go); (0%nat, Pool.Go); (1%nat, Pool.Go); (1%nat, Pool.Go);
   (2%nat, Pool.Go); (2%nat, Pool.Go)].

(** * Properties *)

(** ** Python values *)

(** [asyncio.wait] never meets an empty list of tag fetchers. *)
Lemma split_nonempty sep s : split sep s ≠ [].
Proof.
  destruct s as [|c s]; simpl; [done|].
  destruct (Ascii.eqb c sep); [done|]. by destruct (split sep s).
Qed.

(** ** The tag knowledge database *)

Lemma insert_tag_absent (d : gmap string Z) tag type :
  d !! tag = None → insert_tag d tag type = Ok (<[tag := type]> d).
Proof. intros H. unfold insert_tag. by rewrite H. Qed.

Lemma insert_tag_present (d : gmap string Z) tag type k :
  d !! tag = Some k → insert_tag d tag type = Raise IntegrityError.
Proof. intros H. unfold insert_tag. by rewrite H. Qed.

(** The first loop never raises: it returns the database it leaves. *)
Lemma learn_ok results (d : gmap string Z) :
  ∃ d', learn results d = (Ok d', d').
Proof.
  revert d. induction results as [|r rest IH]; intros d; simpl.
  - by exists d.
  - unfold insert_tag. destruct (d !! name r); apply IH.
Qed.

(** A tag that was known keeps its type, whatever the answer says. *)
Lemma learn_keeps results (d : gmap string Z) tag k :
  d !! tag = Some k → (learn results d).2 !! tag = Some k.
Proof.
  revert d. induction results as [|r rest IH]; intros d H; simpl; [done|].
  unfold insert_tag. destruct (d !! name r) eqn:E; apply IH; [done|].
  destruct (decide (name r = tag)) as [Heq|Hne].
  - rewrite Heq in E. congruence.
  - by rewrite lookup_insert_ne.
Qed.

(** Two records for one tag in an answer: the first is stored. *)
Lemma first_insert_wins (d : gmap string Z) tag k1 k2 :
  d !! tag = None →
  (learn [_wrap tag k1; _wrap tag k2] d).2 !! tag = Some k1.
Proof.
  intros H. simpl. rewrite (insert_tag_absent _ _ _ H).
  rewrite (insert_tag_present _ _ k2 k1) by apply lookup_insert_eq.
  simpl. apply lookup_insert_eq.
Qed.


Lemma find_exact_none tag results :
  Forall (λ tag_data, name tag_data ≠ tag) results → find_exact tag results = None.
Proof.
  induction 1 as [|r rest Hr _ IH]; simpl; [done|].
  apply String.eqb_neq in Hr. by rewrite Hr.
Qed.


Lemma find_exact_some tag results tag_data :
  find_exact tag results = Some tag_data → name tag_data = tag ∧ tag_data ∈ results.
Proof.
  induction results as [|r rest IH]; simpl; [done|].
  destruct (String.eqb (name r) tag) eqn:E.
  - intros [= <-]. apply String.eqb_eq in E. split; [done|].
    destruct r; simpl. apply list_elem_of_here.
  - intros H. destruct (IH H) as [? ?]. split; [done|]. by apply list_elem_of_further.
Qed.

Section SuccFacts.

Context {env : Env}.

(** ** TagFetcher._fetch *)


(** An answer without the tag, on a database that has it by now: the
    insert of the default raises. *)
Lemma on_results_fallback_present tag results (d : gmap string Z) k :
  d !! tag = Some k →
  Forall (λ tag_data, name tag_data ≠ tag) results →
  on_results tag results d = (Raise IntegrityError, (learn results d).2).
Proof.
  intros Hd Hno. unfold on_results.
  pose proof (learn_keeps results d tag k Hd) as Hl.
  destruct (learn_ok results d) as [d1 E]. rewrite E in Hl |- *. simpl in *.
  rewrite (find_exact_none _ _ Hno).
  by rewrite (insert_tag_present _ _ _ _ Hl).
Qed.



End SuccFacts.


(** ** The delay before a retry *)






Section RetryFacts.

Context {env : Env}.




End RetryFacts.



(** ** Traces *)


Lemma page_calls_app tr1 tr2 : page_calls (tr1 ++ tr2) = page_calls tr1 ++ page_calls tr2.
Proof. unfold page_calls. apply bind_app. Qed.

Lemma sink_events_app tr1 tr2 : sink_events (tr1 ++ tr2) = sink_events tr1 ++ sink_events tr2.
Proof. unfold sink_events. apply List.filter_app. Qed.

Lemma acquires_app tr1 tr2 : acquires (tr1 ++ tr2) = (acquires tr1 + acquires tr2)%nat.
Proof. unfold acquires. by rewrite List.filter_app, length_app. Qed.

Lemma shows_app ext1 ext2 pages1 pages2 sink1 sink2 n1 n2 :
  shows ext1 pages1 sink1 n1 → shows ext2 pages2 sink2 n2 →
  shows (ext1 ++ ext2) (pages1 ++ pages2) (sink1 ++ sink2) (n1 + n2).
Proof.
  intros (? & ? & ?) (? & ? & ?). unfold shows.
  rewrite page_calls_app, sink_events_app, acquires_app. by repeat split; f_equal.
Qed.

Section PageFacts.

Context {env : Env}.

Lemma _fetch_trace tag w :
  ∃ ext, trace (_fetch tag w).2 = trace w ++ ext ∧ shows ext [] [] 0.
Proof.
  unfold _fetch. destruct w as [d fs tr]. simpl. revert tr.
  induction fs as [|reply fs IH]; intros tr; simpl.
  - destruct (select_type d tag); simpl.
    + exists []. by rewrite app_nil_r.
    + destruct (on_results _ _ _); simpl. by eexists.
  - destruct (select_type d tag) eqn:E; simpl.
    + exists []. by rewrite app_nil_r.
    + destruct reply as [u|].
      * specialize (IH ((tr ++ [Call (TagIndex tag)]) ++ [Sleep (tag_retry u)])).
        destruct IH as (ext & -> & Hp & Hs & Ha).
        exists ([Call (TagIndex tag); Sleep (tag_retry u)] ++ ext).
        split; [by rewrite <- !app_assoc|].
        apply (shows_app _ _ [] [] [] [] 0%nat 0%nat); by repeat split.
      * destruct (on_results _ _ _); simpl. by eexists.
Qed.

Lemma fetch_trace tf w :
  ∃ ext, trace (fetch tf w).2 = trace w ++ ext ∧ shows ext [] [] 1
         ∧ tf_tag (fetch tf w).1 = tf_tag tf.
Proof.
  unfold fetch.
  destruct (_fetch_trace (tf_tag tf) (emit Acquire w)) as (ext & He & Hext).
  destruct (_fetch _ _) as [[td|e] w']; simpl in *; rewrite He;
    (exists ([Acquire] ++ ext ++ [Release]); split; [by rewrite <- !app_assoc|]; split; [|done]);
    apply (shows_app _ _ [] [] [] [] 1%nat 0%nat); [done| |done|];
    apply (shows_app _ _ [] [] [] [] 0%nat 0%nat); done.
Qed.

Lemma wait_trace tfs w :
  ∃ ext, trace (wait tfs w).2 = trace w ++ ext ∧ shows ext [] [] (length tfs)
         ∧ map tf_tag (wait tfs w).1 = map tf_tag tfs.
Proof.
  revert w. induction tfs as [|tf rest IH]; intros w; simpl.
  - exists []. by rewrite app_nil_r.
  - destruct (fetch_trace tf w) as (ext1 & He1 & Hs1 & Ht1).
    destruct (fetch tf w) as [tf' w1]. simpl in *.
    destruct (IH w1) as (ext2 & He2 & Hs2 & Ht2).
    destruct (wait rest w1) as [rest' w2]. simpl in *.
    exists (ext1 ++ ext2). rewrite He2, He1, <- app_assoc. split; [done|].
    split; [|by rewrite Ht1, Ht2].
    apply (shows_app _ _ [] [] [] [] 1%nat (length rest)); done.
Qed.

(** The last loop over the fetchers only appends namespaced tags. *)
Lemma foldl_add_resolved tfs post :
  ∃ resolved,
    post_tags (foldl add_resolved post tfs) = post_tags post ++ resolved
    ∧ Forall namespaced resolved
    ∧ post_id (foldl add_resolved post tfs) = post_id post
    ∧ post_hash (foldl add_resolved post tfs) = post_hash post
    ∧ post_raw_tags (foldl add_resolved post tfs) = post_raw_tags post.
Proof.
  revert post. induction tfs as [|tf rest IH]; intros post; simpl.
  - exists []. by rewrite app_nil_r.
  - destruct (IH (add_resolved post tf)) as (resolved & -> & Hns & -> & -> & ->).
    unfold add_resolved. destruct (tf_result tf) as [td|]; [|by exists resolved].
    destruct (NAMESPACES !! tag_type td) as [ns|] eqn:E; [|by exists resolved].
    destruct (String.eqb ns ""); [by exists resolved|].
    exists ((ns ++ name td)%string :: resolved). simpl. rewrite <- app_assoc.
    repeat split; try done. constructor; [|done]. by exists (tag_type td), ns, (name td).
Qed.

Lemma process_rawpost_spec rawpost w :
  built_from rawpost (process_rawpost rawpost w).1
  ∧ ∃ ext, trace (process_rawpost rawpost w).2 = trace w ++ ext
           ∧ shows ext [] [] (length (split " " (raw_tags_str rawpost))).
Proof.
  unfold process_rawpost.
  destruct (wait_trace (tag_fetchers_of (add_fixed_tags (Post_init rawpost))) w)
    as (ext & He & Hs & _).
  destruct (wait _ w) as [tfs w1]. simpl in *.
  destruct (foldl_add_resolved tfs (add_fixed_tags (Post_init rawpost)))
    as (resolved & Ht & Hns & Hi & Hh & Hr).
  split.
  - unfold built_from. rewrite Hi, Hh, Hr, Ht. repeat split.
    exists resolved. split; [|done]. simpl. by rewrite <- !app_assoc.
  - exists (ext ++ [DbCommit]). rewrite He, <- app_assoc. split; [done|].
    unfold tag_fetchers_of in Hs. rewrite length_map in Hs. simpl in Hs.
    replace (length (split " " (raw_tags_str rawpost)))
      with (length (split " " (raw_tags_str rawpost)) + 0)%nat by lia.
    apply (shows_app _ _ [] [] [] [] _ 0%nat); done.
Qed.

Lemma process_res_spec res w :
  Forall2 built_from res (process_res res w).1
  ∧ ∃ ext, trace (process_res res w).2 = trace w ++ ext
           ∧ page_calls ext = [] ∧ sink_events ext = [].
Proof.
  revert w. induction res as [|rawpost rest IH]; intros w; simpl.
  - split; [constructor|]. exists []. by rewrite app_nil_r.
  - destruct (process_rawpost_spec rawpost w) as (Hb & ext1 & He1 & Hp1 & Hs1 & _).
    destruct (process_rawpost rawpost w) as [post w1]. simpl in *.
    destruct (IH w1) as (Hbs & ext2 & He2 & Hp2 & Hs2).
    destruct (process_res rest w1) as [posts w2]. simpl in *.
    split; [by constructor|].
    exists (ext1 ++ ext2). rewrite He2, He1, <- app_assoc.
    by rewrite page_calls_app, sink_events_app, Hp1, Hp2, Hs1, Hs2.
Qed.

(** [fetch_page] asks for its page and for no other, tells the archive
    nothing, and builds one post from every entry of the answer. *)
Lemma fetch_page_spec page w :
  Forall2 built_from (post_index page) (fetch_page page w).1
  ∧ ∃ ext n, trace (fetch_page page w).2 = trace w ++ ext
             ∧ page_calls ext = replicate (S n) page ∧ sink_events ext = [].
Proof.
  unfold fetch_page. destruct w as [d fs tr]. simpl. revert tr.
  assert (Hsucc : ∀ fs' tr,
    let r := process_res (post_index page)
               {| db := d; faults := fs'; trace := tr ++ [Call (PostIndex page)] |} in
    Forall2 built_from (post_index page) (let (posts, w) := r in (posts, emit DbCommit w)).1
    ∧ ∃ ext n, trace (let (posts, w) := r in (posts, emit DbCommit w)).2 = tr ++ ext
               ∧ page_calls ext = replicate (S n) page ∧ sink_events ext = []).
  { intros fs' tr r. subst r.
    destruct (process_res_spec (post_index page)
                {| db := d; faults := fs'; trace := tr ++ [Call (PostIndex page)] |})
      as (Hb & ext & He & Hp & Hs).
    destruct (process_res _ _) as [posts w1]. simpl in *. split; [done|].
    exists ([Call (PostIndex page)] ++ ext ++ [DbCommit]), 0%nat.
    rewrite He, <- !app_assoc. split; [done|].
    by rewrite !page_calls_app, !sink_events_app, Hp, Hs. }
  induction fs as [|reply fs IH]; intros tr; simpl.
  - apply Hsucc.
  - destruct reply as [u|]; [|apply Hsucc].
    destruct (IH ((tr ++ [Call (PostIndex page)]) ++ [Sleep (page_retry u)]))
      as (Hb & ext & n & He & Hp & Hs).
    split; [done|].
    exists ([Call (PostIndex page); Sleep (page_retry u)] ++ ext), (S n).
    rewrite He, <- !app_assoc. split; [done|].
    by rewrite page_calls_app, sink_events_app, Hs, Hp.
Qed.

Lemma built_from_ids res posts :
  Forall2 built_from res posts → map post_id posts = map raw_id res.
Proof.
  induction 1 as [|raw post res posts (Hi & _) _ IH]; simpl; [done|].
  by rewrite Hi, IH.
Qed.

Lemma fetch_page_ids page w :
  map post_id (fetch_page page w).1 = map raw_id (post_index page).
Proof. apply built_from_ids, fetch_page_spec. Qed.

(** C3, amended. For every entry of the answer, [fetch_page] creates one
    tag fetcher for every element of the list [raw_tags], in the order of
    the list and repeated tags included, and enters the semaphore once
    for each of them. *)
Theorem one_fetch_per_occurrence rawpost w :
  map tf_tag (tag_fetchers_of (add_fixed_tags (Post_init rawpost)))
    = split " " (raw_tags_str rawpost)
  ∧ acquires (trace (process_rawpost rawpost w).2)
    = (acquires (trace w) + length (split " " (raw_tags_str rawpost)))%nat.
Proof.
  split.
  - unfold tag_fetchers_of. simpl. rewrite map_map. simpl. apply map_id.
  - destruct (process_rawpost_spec rawpost w) as (_ & ext & -> & _ & _ & Ha).
    by rewrite acquires_app, Ha.
Qed.

(** C8, amended. Every post that [fetch_page] returns carries, after the
    tags of its entry and before any tag that comes from a tag type, the
    four tags [hypnosis], [booru:hypnohub], [md5:] followed by the hash
    and [id:] followed by the id, whatever the database and the tag index
    say. *)
Theorem fetch_page_fixed_tags page w :
  Forall2
    (λ rawpost post,
       ∃ resolved : list string,
         post_tags post =
           split " " (raw_tags_str rawpost)
           ++ ["hypnosis"; "booru:hypnohub"; ("md5:" ++ raw_md5 rawpost)%string;
               ("id:" ++ pretty (raw_id rawpost))%string]
           ++ resolved
         ∧ Forall namespaced resolved)
    (post_index page) (fetch_page page w).1.
Proof.
  eapply Forall2_impl; [apply fetch_page_spec|].
  intros rawpost post (_ & _ & _ & H). exact H.
Qed.

End PageFacts.

(** C3 as it was stated fails on a post whose tags repeat: the tag [a],
    twice in the list, gets two fetchers, and the semaphore is entered
    three times for two distinct tags. *)
Lemma repeated_tag_fetched_twice :
  let rawpost := demo_post 12 "ab a a" "d41d8cd98f00b204e9800998ecf8427e" in
  map tf_tag (tag_fetchers_of (add_fixed_tags (Post_init rawpost))) = ["ab"; "a"; "a"]
  ∧ acquires (trace (process_rawpost (env := demo_env) rawpost cold).2) = 3%nat
  ∧ length (remove_dups (post_raw_tags (Post_init rawpost))) = 2%nat.
Proof. repeat split. Qed.

(** C8 as it was stated fails on the name of the third tag: the hash is
    put under [md5:], and no tag of the post starts with [hash:]. *)
Lemma hash_tag_is_md5 :
  ∃ post,
    (fetch_page (env := demo_env) 1 cold).1 = [post]
    ∧ post_tags post =
        ["ab"; "hypnosis"; "booru:hypnohub";
         "md5:900150983cd24fb0d6963f7d28e17f72"; "id:10"; "character:ab"]
    ∧ forallb (λ t, negb (String.prefix "hash:" t)) (post_tags post) = true.
Proof. eexists. split; [reflexivity|]. split; reflexivity. Qed.

(** ** The crawls *)

Lemma requests_cons n page retries pages :
  requests (n :: retries) (page :: pages) = replicate (S n) page ++ requests retries pages.
Proof. reflexivity. Qed.





Section CrawlFacts.

Context {env : Env}.

Lemma gather_pages_app pages1 pages2 w :
  gather_pages (pages1 ++ pages2) w =
  let (posts1, w1) := gather_pages pages1 w in
  let (posts2, w2) := gather_pages pages2 w1 in
  (posts1 ++ posts2, w2).
Proof.
  revert w. induction pages1 as [|page pages1 IH]; intros w; simpl.
  - by destruct (gather_pages pages2 w).
  - destruct (fetch_page page w) as [data w1]. rewrite IH.
    destruct (gather_pages pages1 w1) as [posts1 w2].
    destruct (gather_pages pages2 w2) as [posts2 w3]. by rewrite app_assoc.
Qed.

(** Pages fetched one after the other: the ids of the catalog in the order
    of the pages, requests for these pages in their order, nothing for the
    archive. *)
Lemma gather_pages_spec pages w :
  map post_id (gather_pages pages w).1 = pages ≫= page_ids
  ∧ ∃ ext retries, trace (gather_pages pages w).2 = trace w ++ ext
                   ∧ length retries = length pages
                   ∧ page_calls ext = requests retries pages
                   ∧ sink_events ext = [].
Proof.
  revert w. induction pages as [|page pages IH]; intros w; simpl.
  - split; [done|]. exists [], []. by rewrite app_nil_r.
  - pose proof (fetch_page_ids page w) as Hid.
    destruct (fetch_page_spec page w) as (_ & ext1 & n & He1 & Hp1 & Hs1).
    destruct (fetch_page page w) as [data w1]. simpl in *.
    destruct (IH w1) as (Hids & ext2 & retries & He2 & Hl & Hp2 & Hs2).
    destruct (gather_pages pages w1) as [posts w2]. simpl in *. split.
    + by rewrite map_app, Hid, Hids.
    + exists (ext1 ++ ext2), (n :: retries). rewrite He2, He1, <- app_assoc.
      split; [done|]. split; [by simpl; rewrite Hl|].
      by rewrite page_calls_app, sink_events_app, Hp1, Hp2, Hs1, Hs2, requests_cons.
Qed.

Lemma unwanted_nil until_id posts :
  Forall (λ i, i >= until_id) (map post_id posts) →
  filter (λ post, post_id post < until_id) posts = [].
Proof.
  induction posts as [|post posts IH]; simpl; [done|].
  intros [H1 H2]%Forall_cons. rewrite filter_cons_False by lia. by apply IH.
Qed.

Lemma unwanted_cons until_id posts :
  Exists (λ i, i < until_id) (map post_id posts) →
  ∃ post rest, filter (λ post, post_id post < until_id) posts = post :: rest.
Proof.
  induction posts as [|post posts IH]; simpl; [by intros ?%Exists_nil|].
  intros [H|H]%Exists_cons.
  - rewrite filter_cons_True by done. by eexists _, _.
  - destruct (decide (post_id post < until_id)).
    + rewrite filter_cons_True by done. by eexists _, _.
    + rewrite filter_cons_False by done. by apply IH.
Qed.

(** The loop of [c_fetch_until] leaves at the first page with an id below
    the target, having fetched the pages up to that one. *)
Lemma fetch_until_loop_stops (k : nat) :
  ∀ fuel until_id page final_posts w,
    (k < fuel)%nat →
    (∀ j : nat, (j < k)%nat →
       Forall (λ i, i >= until_id) (page_ids (page + Z.of_nat j))) →
    Exists (λ i, i < until_id) (page_ids (page + Z.of_nat k)) →
    fetch_until_loop fuel until_id page final_posts w =
      (Some (final_posts
             ++ filter (λ post, post_id post >= until_id)
                       (gather_pages (seqZ page (Z.of_nat k + 1)) w).1),
       (gather_pages (seqZ page (Z.of_nat k + 1)) w).2).
Proof.
  induction k as [|k IH]; intros fuel until_id page final_posts w Hfuel Hbefore Hat;
    (destruct fuel as [|fuel]; [lia|]);
    rewrite seqZ_cons by lia; cbn [fetch_until_loop gather_pages];
    pose proof (fetch_page_ids page w) as Hid;
    destruct (fetch_page page w) as [posts w1]; simpl in Hid.
  - rewrite Z.add_0_r in Hat. unfold page_ids in Hat. rewrite <- Hid in Hat.
    destruct (unwanted_cons _ _ Hat) as (post & rest & ->).
    change (seqZ (Z.succ page) (Z.pred (Z.of_nat 0 + 1))) with (@nil Z).
    simpl. by rewrite app_nil_r.
  - pose proof (Hbefore 0%nat ltac:(lia)) as H0. rewrite Z.add_0_r in H0.
    unfold page_ids in H0. rewrite <- Hid in H0.
    rewrite (unwanted_nil _ _ H0).
    replace (Z.pred (Z.of_nat (S k) + 1)) with (Z.of_nat k + 1) by lia.
    replace (Z.succ page) with (page + 1) by lia.
    rewrite (IH fuel until_id (page + 1) _ w1); [|lia| |].
    + destruct (gather_pages (seqZ (page + 1) (Z.of_nat k + 1)) w1) as [more w2]. simpl.
      by rewrite filter_app, app_assoc.
    + intros j Hj. replace (page + 1 + Z.of_nat j) with (page + Z.of_nat (S j)) by lia.
      apply Hbefore. lia.
    + by replace (page + 1 + Z.of_nat k) with (page + Z.of_nat (S k)) by lia.
Qed.

(** Without an id below the target on any page to come, the loop uses up
    any fuel. *)
Lemma fetch_until_loop_goes_on fuel :
  ∀ until_id page final_posts w,
    (∀ j : nat, Forall (λ i, i >= until_id) (page_ids (page + Z.of_nat j))) →
    (fetch_until_loop fuel until_id page final_posts w).1 = None.
Proof.
  induction fuel as [|fuel IH]; intros until_id page final_posts w Hall; simpl; [done|].
  pose proof (fetch_page_ids page w) as Hid.
  destruct (fetch_page page w) as [posts w1]. simpl in *.
  pose proof (Hall 0%nat) as H0. rewrite Z.add_0_r in H0.
  unfold page_ids in H0. rewrite <- Hid in H0.
  rewrite (unwanted_nil _ _ H0). apply IH.
  intros j. replace (page + 1 + Z.of_nat j) with (page + Z.of_nat (S j)) by lia. apply Hall.
Qed.

End CrawlFacts.

Lemma wanted_ids until_id posts :
  map post_id (filter (λ post, post_id post >= until_id) posts)
  = filter (λ i, i >= until_id) (map post_id posts).
Proof.
  induction posts as [|post posts IH]; simpl; [done|].
  destruct (decide (post_id post >= until_id)).
  - rewrite !filter_cons_True by done. simpl. by rewrite IH.
  - by rewrite !filter_cons_False by done.
Qed.

Section UntilFacts.

Context {env : Env}.


(** C10. When the crawl leaves its loop without a post kept, reading the
    id of the first post raises [IndexError] and the archive is told
    nothing, not even an empty batch; a crawl that ends well has kept at
    least one post and written it. *)
Theorem fetch_until_nothing_wanted until_id (k fuel : nat) w :
  (∀ j : nat, (j < k)%nat →
     Forall (λ i, i >= until_id) (page_ids (Z.of_nat j))) →
  Exists (λ i, i < until_id) (page_ids (Z.of_nat k)) →
  (k < fuel)%nat →
  let fetched := gather_pages (seqZ 0 (Z.of_nat k + 1)) w in
  filter (λ post, post_id post >= until_id) fetched.1 = [] →
  c_fetch_until fuel until_id w = (Done (Raise IndexError), fetched.2)
  ∧ sink_events (trace fetched.2) = sink_events (trace w)
  ∧ ∀ fuel' w',
      c_fetch_until fuel' until_id w = (Done (Ok tt), w') →
      ∃ first rest w1,
        fetch_until_loop fuel' until_id 0 [] w = (Some (first :: rest), w1)
        ∧ w' = process_hta (first :: rest) w1.
Proof.
  intros Hbefore Hat Hfuel fetched Hnil. split; [|split].
  - unfold c_fetch_until.
    rewrite (fetch_until_loop_stops k fuel until_id 0 [] w Hfuel); [| |done].
    + fold fetched. by rewrite Hnil.
    + intros j Hj. by apply Hbefore.
  - destruct (gather_pages_spec (seqZ 0 (Z.of_nat k + 1)) w)
      as (_ & ext & retries & He & _ & _ & Hs).
    fold fetched in He. by rewrite He, sink_events_app, Hs, app_nil_r.
  - intros fuel' w'. unfold c_fetch_until.
    destruct (fetch_until_loop fuel' until_id 0 [] w) as [[[|first rest]|] w1];
      intros [= <-]. by exists first, rest, w1.
Qed.

End UntilFacts.


Lemma fetch_until_nothing_wanted_witness :
  c_fetch_until (env := demo_env) 1 100 cold
    = (Done (Raise IndexError), (gather_pages (env := demo_env) (seqZ 0 1) cold).2)
  ∧ sink_events (trace (c_fetch_until (env := demo_env) 1 100 cold).2) = [].
Proof.
  destruct (fetch_until_nothing_wanted (env := demo_env) 100 0 1 cold) as (H1 & H2 & _).
  - intros j Hj. lia.
  - vm_compute. apply Exists_cons_hd. reflexivity.
  - lia.
  - reflexivity.
  - split; [exact H1|]. reflexivity.
Defined.


(** C4: on the catalog of three posts, whose pages 2 and later are empty,
    the crawl until id 5 meets no id below 5; it goes past the empty pages
    and leaves its loop with no amount of fuel. *)
Theorem fetch_until_runs_past_empty_pages (fuel : nat) (w : World) :
  page_ids (env := demo_env) 2 = []
  ∧ (c_fetch_until (env := demo_env) fuel 5 w).1 = OutOfFuel
  ∧ page_calls (trace (c_fetch_until (env := demo_env) 6 5 cold).2) = [0; 1; 2; 3; 4; 5].
Proof.
  split; [reflexivity|]. split; [|reflexivity].
  unfold c_fetch_until.
  pose proof (fetch_until_loop_goes_on (env := demo_env) fuel 5 0 [] w) as H.
  destruct (fetch_until_loop fuel 5 0 [] w) as [r w1]. simpl in H.
  rewrite H; [done|].
  intros j. unfold page_ids. simpl.
  repeat case_decide; simpl; repeat (apply Forall_cons_2; [lia|]); apply Forall_nil_2.
Qed.

Section AllFacts.

Context {env : Env}.




End AllFacts.


(** ** The semaphore and the database under interleaving *)

Section PoolFacts.

Import Pool.

Context {env : Env}.

Lemma count_insert f (ts : list task) i t p :
  ts !! i = Some t →
  (count f (<[i := {| tag := tag t; at_ := p |}]> ts) + (if f (at_ t) then 1 else 0)
   = count f ts + (if f p then 1 else 0))%nat.
Proof.
  unfold count. revert i. induction ts as [|t0 ts IH]; intros [|i] H; simpl in *; try done.
  - injection H as ->. destruct (f (at_ t)), (f p); simpl; lia.
  - specialize (IH i H). destruct (f (at_ t0)); simpl; lia.
Qed.

Lemma count_le f g (ts : list task) :
  (∀ p, f p = true → g p = true) → (count f ts ≤ count g ts)%nat.
Proof.
  intros Hfg. unfold count. induction ts as [|t ts IH]; simpl; [done|].
  destruct (f (at_ t)) eqn:E.
  - rewrite (Hfg _ E). simpl. lia.
  - destruct (g (at_ t)); simpl; lia.
Qed.

Lemma count_created f tags :
  f Created = false →
  count f (map (λ t, {| tag := t; at_ := Created |}) tags) = 0%nat.
Proof.
  intros Hf. unfold count. induction tags as [|t tags IH]; simpl; [done|].
  by rewrite Hf.
Qed.

(** A segment keeps the permits and the fetchers inside in balance. *)
Lemma run1_balance i inp s s' :
  run1 i inp s = Some s' →
  (permits s' + inside s' = permits s + inside s)%nat.
Proof.
  unfold run1, inside. destruct (tasks s !! i) as [t|] eqn:Ht; [|done].
  destruct (resume t inp s) as [[[p n] d]|] eqn:Hr; [|done].
  intros [= <-]. simpl.
  pose proof (count_insert holds (tasks s) i t p Ht) as Hc.
  unfold resume in Hr.
  destruct (at_ t) eqn:Hat, inp; try done; simpl in Hc.
  - destruct (permits s) eqn:Hp; [done|]. injection Hr as <- <- <-. simpl in Hc. lia.
  - destruct (select_type (store s) (tag t)); injection Hr as <- <- <-; simpl in Hc; lia.
  - destruct (on_results (tag t) results (store s)) as [[td|e] d'];
      injection Hr as <- <- <-; simpl in Hc; lia.
  - injection Hr as <- <- <-. simpl in Hc. lia.
  - injection Hr as <- <- <-. simpl in Hc. lia.
Qed.

Lemma run_balance schedule s s' :
  run schedule s = Some s' →
  (permits s' + inside s' = permits s + inside s)%nat.
Proof.
  revert s. induction schedule as [|[i inp] rest IH]; intros s; simpl.
  - by intros [= <-].
  - destruct (run1 i inp s) as [s1|] eqn:E; [|done].
    intros H. rewrite (IH _ H). by apply run1_balance in E.
Qed.

(** The steps of a schedule are steps of the relation. *)
Lemma run_steps schedule s s' : run schedule s = Some s' → rtc step s s'.
Proof.
  revert s. induction schedule as [|[i inp] rest IH]; intros s; simpl.
  - intros [= <-]. apply rtc_refl.
  - destruct (run1 i inp s) as [s1|] eqn:E; [|done].
    intros H. eapply rtc_l; [by exists i, inp|by apply IH].
Qed.

Lemma steps_run s s' : rtc step s s' → ∃ schedule, run schedule s = Some s'.
Proof.
  induction 1 as [s|s s1 s' (i & inp & Hstep) _ (schedule & Hrun)].
  - by exists [].
  - exists ((i, inp) :: schedule). simpl. by rewrite Hstep.
Qed.

(** A fetcher that has not entered can do one thing: take a permit. It
    reads and writes nothing of the database before. *)
Lemma run1_created i inp s s' t :
  tasks s !! i = Some t → at_ t = Created →
  run1 i inp s = Some s' →
  permits s = S (permits s') ∧ store s' = store s
  ∧ tasks s' !! i = Some {| tag := tag t; at_ := Entered |}.
Proof.
  intros Ht Hat. unfold run1, resume. rewrite Ht, Hat.
  destruct inp; try done. destruct (permits s); [done|].
  intros [= <-]. simpl. repeat split.
  apply list_lookup_insert_eq. by eapply lookup_lt_Some.
Qed.

(** The segment in which a fetcher leaves gives its permit back, be it
    with a result or with an exception. *)
Lemma run1_left i inp s s' t' :
  run1 i inp s = Some s' →
  tasks s' !! i = Some t' → left (at_ t') = true →
  permits s' = S (permits s).
Proof.
  unfold run1. destruct (tasks s !! i) as [t|] eqn:Ht; [|done].
  destruct (resume t inp s) as [[[p n] d]|] eqn:Hr; [|done].
  intros [= <-]. simpl.
  rewrite list_lookup_insert_eq by by eapply lookup_lt_Some.
  intros [= <-]. simpl. intros Hleft.
  unfold resume in Hr. destruct (at_ t), inp; try done.
  - destruct (permits s); [done|]. by injection Hr as <- <- <-.
  - destruct (select_type (store s) (tag t)); by injection Hr as <- <- <-.
  - destruct (on_results (tag t) results (store s)) as [[td|e] d'];
      by injection Hr as <- <- <-.
  - by injection Hr as <- <- <-.
  - by injection Hr as <- <- <-.
Qed.

(** C9. However the fetchers of the program are interleaved and whatever
    the remote answers, the permits left and the fetchers inside
    [async with] add up to the three of the one semaphore: at most three
    fetchers are inside, so at most three requests for tags are out. A
    fetcher takes its permit before it does anything else, the lookup in
    the database included, and gives it back in the segment in which it
    leaves, with a result or with an exception. *)
Theorem at_most_three_in_flight tags (d : gmap string Z) schedule s :
  run schedule (init tags d) = Some s →
  (permits s + inside s = 3)%nat
  ∧ (in_flight s ≤ 3)%nat
  ∧ (∀ i inp s' t,
       tasks s !! i = Some t → at_ t = Created → run1 i inp s = Some s' →
       permits s = S (permits s') ∧ store s' = store s
       ∧ tasks s' !! i = Some {| tag := tag t; at_ := Entered |})
  ∧ (∀ i inp s' t',
       run1 i inp s = Some s' → tasks s' !! i = Some t' → left (at_ t') = true →
       permits s' = S (permits s)).
Proof.
  intros Hrun. apply run_balance in Hrun.
  assert (H0 : inside (init tags d) = 0%nat) by by apply count_created.
  rewrite H0 in Hrun. simpl in Hrun. unfold capacity in Hrun.
  assert (Hle : (in_flight s ≤ inside s)%nat).
  { apply count_le. by intros []. }
  split; [lia|]. split; [lia|]. split.
  - intros i inp s' t. apply run1_created.
  - intros i inp s' t'. apply run1_left.
Qed.

End PoolFacts.

Lemma at_most_three_in_flight_witness :
  ∃ s, Pool.run (env := demo_env) three_out (Pool.init ten_tags ∅) = Some s
       ∧ Pool.in_flight s = 3%nat
       ∧ Pool.run1 (env := demo_env) 3 Pool.Go s = None
       ∧ (Pool.permits s + Pool.inside s = 3)%nat
       ∧ (Pool.in_flight s ≤ 3)%nat.
Proof.
  eexists. split; [reflexivity|]. split; [reflexivity|]. split; [reflexivity|].
  edestruct (at_most_three_in_flight (env := demo_env) ten_tags ∅ three_out)
    as (H1 & H2 & _); [reflexivity|].
  split; [exact H1 | exact H2].
Defined.

(** C2: two fetchers for the tag [a], which the database and the answer
    of the tag index do not have. Both look into the database before
    either answer arrives. The first inserts the default; the insert of
    the second, which no handler surrounds, raises [IntegrityError] and
    its fetcher ends without a result. *)
Theorem default_insert_raises :
  let answer := tag_index (Env := demo_env) "a" in
  Forall (λ tag_data, name tag_data ≠ "a") answer
  ∧ ∃ s,
      Pool.run (env := demo_env)
        [(0%nat, Pool.Go); (0%nat, Pool.Go); (1%nat, Pool.Go); (1%nat, Pool.Go);
         (0%nat, Pool.Response answer); (1%nat, Pool.Response answer)]
        (Pool.init ["a"; "a"] ∅) = Some s
      ∧ Pool.tasks s =
          [ {| Pool.tag := "a"; Pool.at_ := Pool.Finished (_wrap "a" 0) |};
            {| Pool.tag := "a"; Pool.at_ := Pool.Failed IntegrityError |} ]
      ∧ Pool.store s !! "a" = Some 0
      ∧ learn [_wrap "a" 4] (Pool.store s) = (Ok (Pool.store s), Pool.store s).
Proof.
  split.
  - simpl. repeat constructor; discriminate.
  - eexists. split; [reflexivity|]. split; [reflexivity|]. split; reflexivity.
Qed.

(** * Further properties of the tag fetcher *)

(** The type stored for a new name is that of the first record of the
    answer with this name. *)
Lemma learn_first tag results tag_data (d : gmap string Z) :
  d !! tag = None →
  find_exact tag results = Some tag_data →
  (learn results d).2 !! tag = Some (tag_type tag_data).
Proof.
  revert d. induction results as [|r rest IH]; intros d Hd; simpl; [done|].
  destruct (String.eqb (name r) tag) eqn:E.
  - apply String.eqb_eq in E. intros [= <-]. simpl.
    rewrite E, (insert_tag_absent _ _ _ Hd).
    apply learn_keeps, lookup_insert_eq.
  - apply String.eqb_neq in E. intros Hf. unfold insert_tag.
    destruct (d !! name r); apply IH; try done. by rewrite lookup_insert_ne.
Qed.

(** The first loop only adds to the database. *)
Lemma learn_subseteq results (d : gmap string Z) : d ⊆ (learn results d).2.
Proof.
  revert d. induction results as [|r rest IH]; intros d; simpl; [done|].
  unfold insert_tag. destruct (d !! name r) eqn:E; [apply IH|].
  etrans; [|apply IH]. by apply insert_subseteq.
Qed.


Section FetcherFacts.

Context {env : Env}.

Lemma on_results_subseteq tag results (d : gmap string Z) :
  d ⊆ (on_results tag results d).2.
Proof.
  unfold on_results. pose proof (learn_subseteq results d) as Hs.
  destruct (learn results d) as [[d0|e] d1]; simpl in *; [|done].
  destruct (find_exact tag results); [done|].
  unfold insert_tag. destruct (d1 !! tag) eqn:E; simpl; [done|].
  etrans; [exact Hs|]. by apply insert_subseteq.
Qed.

(** What a result of [on_results] says and what the database says then. *)
Lemma on_results_stored tag results (d d' : gmap string Z) tag_data :
  d !! tag = None →
  on_results tag results d = (Ok tag_data, d') →
  name tag_data = tag ∧ d' !! tag = Some (tag_type tag_data).
Proof.
  intros Hd. unfold on_results.
  destruct (learn_ok results d) as [d1 E]. rewrite E.
  destruct (find_exact tag results) as [td|] eqn:F.
  - intros [= <- <-]. split; [by apply find_exact_some in F as [? _]|].
    pose proof (learn_first _ _ _ _ Hd F) as H. by rewrite E in H.
  - unfold insert_tag. destruct (d1 !! tag); [done|].
    intros [= <- <-]. split; [done|]. apply lookup_insert_eq.
Qed.

Lemma _fetch_stored tag w tag_data w' :
  _fetch tag w = (Ok tag_data, w') →
  name tag_data = tag ∧ db w' !! tag = Some (tag_type tag_data).
Proof.
  unfold _fetch. destruct w as [d fs tr]. simpl. revert tr.
  assert (Hres : ∀ fs' tr', select_type d tag = None →
    (let (r, d') := on_results tag (tag_index tag) d in
     (r, {| db := d'; faults := fs'; trace := tr' |})) = (Ok tag_data, w') →
    name tag_data = tag ∧ db w' !! tag = Some (tag_type tag_data)).
  { intros fs' tr' Hd. destruct (on_results tag (tag_index tag) d) as [r d'] eqn:E.
    intros [= -> <-]. simpl. by eapply on_results_stored. }
  induction fs as [|reply fs IH]; intros tr; simpl.
  - destruct (select_type d tag) eqn:Hd; [by intros [= <- <-]|]. by apply Hres.
  - destruct (select_type d tag) eqn:Hd; [by intros [= <- <-]|].
    destruct reply as [u|]; [apply IH|by apply Hres].
Qed.



End FetcherFacts.



Section LearningFacts.

Context {env : Env}.




End LearningFacts.


(** * Further properties of the fetchers under interleaving *)

Section PoolInvariants.

Import Pool.

Context {env : Env}.



Lemma run1_store i inp s s' : run1 i inp s = Some s' → store s ⊆ store s'.
Proof.
  unfold run1. destruct (tasks s !! i) as [t|]; [|done].
  destruct (resume t inp s) as [[[p n] d]|] eqn:Hr; [|done].
  intros [= <-]. simpl. unfold resume in Hr.
  destruct (at_ t), inp; try done.
  - destruct (permits s); [done|]. by injection Hr as <- <- <-.
  - destruct (select_type (store s) (tag t)); by injection Hr as <- <- <-.
  - pose proof (on_results_subseteq (tag t) results (store s)) as Hs.
    destruct (on_results (tag t) results (store s)) as [[td|e] d'];
      by injection Hr as <- <- <-.
  - by injection Hr as <- <- <-.
  - by injection Hr as <- <- <-.
Qed.

(** X4. Under every interleaving of the fetchers and every answer of the
    remote, the database only grows: a tag once stored stays, with the
    type it was first given. *)
Theorem pool_first_writer_wins schedule s s' tag_name k :
  run schedule s = Some s' →
  store s !! tag_name = Some k →
  store s' !! tag_name = Some k.
Proof.
  revert s. induction schedule as [|[i inp] rest IH]; intros s; simpl.
  - by intros [= <-].
  - destruct (run1 i inp s) as [s1|] eqn:E; [|done].
    intros Hrun Hk. apply (IH s1 Hrun).
    apply run1_store in E. by eapply lookup_weaken.
Qed.



Lemma holder_or_none (ts : list task) :
  (∃ i t, ts !! i = Some t ∧ holds (at_ t) = true) ∨ count holds ts = 0%nat.
Proof.
  unfold count. induction ts as [|t ts [(i & t' & Hi & Hh)|IH]]; simpl.
  - by right.
  - left. by exists (S i), t'.
  - destruct (holds (at_ t)) eqn:E; [|by right].
    left. by exists 0%nat, t.
Qed.

(** X6. The fetchers never block one another for good: under every
    interleaving, as long as a fetcher has not left, some fetcher can go
    on, be it by entering the semaphore, by waking up, or by the arrival
    of the answer it waits for. *)
Theorem pool_no_deadlock tags (d : gmap string Z) schedule s i t :
  run schedule (init tags d) = Some s →
  tasks s !! i = Some t →
  left (at_ t) = false →
  ∃ j inp s', run1 j inp s = Some s'.
Proof.
  intros Hrun Hi Hleft.
  pose proof (run_balance _ _ _ Hrun) as Hbal.
  rewrite (count_created holds tags eq_refl : inside (init tags d) = 0%nat) in Hbal.
  simpl in Hbal. unfold capacity in Hbal.
  assert (Hgo : ∀ j tj, tasks s !! j = Some tj → holds (at_ tj) = true →
                ∃ inp s', run1 j inp s = Some s').
  { intros j tj Hj Hh. unfold run1. rewrite Hj. unfold resume.
    destruct (at_ tj) eqn:Ha; try done.
    - exists Go. destruct (select_type (store s) (tag tj)); by eexists.
    - exists (Response []).
      destruct (on_results (tag tj) [] (store s)) as [[td|e] d']; by eexists.
    - exists Go. by eexists. }
  destruct (holder_or_none (tasks s)) as [(j & tj & Hj & Hh)|Hnone].
  - exists j. by eapply Hgo.
  - unfold inside in Hbal. rewrite Hnone in Hbal.
    destruct (at_ t) eqn:Ha; try done.
    + exists i, Go. unfold run1. rewrite Hi. unfold resume. rewrite Ha.
      destruct (permits s); [lia|]. by eexists.
    + exists i. eapply Hgo; [done|]. by rewrite Ha.
    + exists i. eapply Hgo; [done|]. by rewrite Ha.
    + exists i. eapply Hgo; [done|]. by rewrite Ha.
Qed.

End PoolInvariants.

Lemma pool_first_writer_wins_witness :
  ∃ s',
    Pool.run (env := demo_env)
      [(0%nat, Pool.Go); (0%nat, Pool.Go);
       (0%nat, Pool.Response [_wrap "ab" 4; _wrap "abc" 1])]
      (Pool.init ["a"; "ab"] {[ "ab" := 7 ]}) = Some s'
    ∧ Pool.store s' !! "ab" = Some 7
    ∧ Pool.store s' !! "abc" = Some 1.
Proof.
  eexists. split; [reflexivity|]. split; [|reflexivity].
  apply (pool_first_writer_wins (env := demo_env)
           [(0%nat, Pool.Go); (0%nat, Pool.Go);
            (0%nat, Pool.Response [_wrap "ab" 4; _wrap "abc" 1])]
           (Pool.init ["a"; "ab"] {[ "ab" := 7 ]}) _ "ab" 7); reflexivity.
Defined.


Lemma pool_no_deadlock_witness :
  ∃ s j inp s',
    Pool.run (env := demo_env) three_out (Pool.init ten_tags ∅) = Some s
    ∧ Pool.run1 (env := demo_env) 3 Pool.Go s = None
    ∧ Pool.run1 (env := demo_env) j inp s = Some s'.
Proof.
  assert (E : ∃ s, Pool.run (env := demo_env) three_out (Pool.init ten_tags ∅) = Some s)
    by (eexists; reflexivity).
  destruct E as [s E]. pose proof E as E2. vm_compute in E2. injection E2 as <-.
  destruct (pool_no_deadlock (env := demo_env) ten_tags ∅ three_out _ 3%nat
              {| Pool.tag := "t3"; Pool.at_ := Pool.Created |} E)
    as (j & inp & s' & H); [reflexivity|reflexivity|].
  eexists _, j, inp, s'. split; [exact E|]. split; [reflexivity|exact H].
Defined.

(** * Further properties of posts and pages *)

Lemma split_cons sep c s :
  split sep (String c s) =
  if Ascii.eqb c sep then EmptyString :: split sep s
  else match split sep s with
       | field :: fields => String c field :: fields
       | [] => [String c EmptyString]
       end.
Proof. reflexivity. Qed.

(** Splitting loses nothing and cuts at every separator: joining the
    fields with the separator gives the string back, there is one field
    more than there are separators, and no field holds a separator. *)
Lemma split_fields sep s :
  join sep (split sep s) = s
  ∧ length (split sep s) = S (occurrences sep s)
  ∧ Forall (λ field, occurrences sep field = 0%nat) (split sep s).
Proof.
  induction s as [|c s (IHj & IHl & IHf)].
  - repeat split. by repeat constructor.
  - rewrite split_cons. destruct (Ascii.eqb c sep) eqn:E.
    + apply Ascii.eqb_eq in E as ->. repeat split.
      * pose proof (split_nonempty sep s) as Hne.
        change (join sep (EmptyString :: split sep s)) with
          (match split sep s with
           | [] => EmptyString
           | _ => String sep (join sep (split sep s))
           end).
        destruct (split sep s); [done|]. by rewrite IHj.
      * simpl. rewrite Ascii.eqb_refl. by rewrite IHl.
      * by constructor.
    + pose proof (split_nonempty sep s) as Hne.
      destruct (split sep s) as [|field fields]; [done|]. repeat split.
      * rewrite <- IHj. simpl. by destruct fields.
      * simpl in *. rewrite E. lia.
      * apply Forall_cons in IHf as [H1 H2]. constructor; [|done].
        simpl. by rewrite E.
Qed.

(** X7. A new post has the fields of the tags string as its raw tags and
    as its tags: joined with spaces they give the string back, there is
    one more of them than there are spaces (so at least one, the empty
    tag when the API sent no tags), and none of them holds a space. *)
Theorem post_init_tags data :
  post_tags (Post_init data) = post_raw_tags (Post_init data)
  ∧ join " " (post_raw_tags (Post_init data)) = raw_tags_str data
  ∧ length (post_raw_tags (Post_init data)) = S (occurrences " " (raw_tags_str data))
  ∧ Forall (λ tag, occurrences " " tag = 0%nat) (post_raw_tags (Post_init data)).
Proof. split; [done|]. apply split_fields. Qed.

Section RetryChains.

Context {env : Env}.



End RetryChains.


Lemma tag_calls_app tr1 tr2 : tag_calls (tr1 ++ tr2) = tag_calls tr1 ++ tag_calls tr2.
Proof. unfold tag_calls. apply bind_app. Qed.

Lemma extends_refl allowed w : extends allowed w w.
Proof. split; [done|]. exists []. by rewrite app_nil_r. Qed.

Lemma extends_trans allowed w1 w2 w3 :
  extends allowed w1 w2 → extends allowed w2 w3 → extends allowed w1 w3.
Proof.
  intros (Hd1 & ext1 & He1 & Ha1) (Hd2 & ext2 & He2 & Ha2). split; [by etrans|].
  exists (ext1 ++ ext2). rewrite He2, He1, <- app_assoc. split; [done|].
  rewrite tag_calls_app. by apply Forall_app.
Qed.

Lemma extends_mono (allowed allowed' : string → Prop) w w' :
  (∀ t, allowed t → allowed' t) → extends allowed w w' → extends allowed' w w'.
Proof.
  intros Himp (Hd & ext & He & Ha). split; [done|]. exists ext. split; [done|].
  by eapply Forall_impl.
Qed.

Lemma extends_emit allowed e w :
  tag_calls [e] = [] → extends allowed w (emit e w).
Proof. intros He. split; [done|]. exists [e]. by rewrite He. Qed.

Section PageChains.

Context {env : Env}.

Lemma _fetch_extends tag w : extends (λ t, t = tag) w (_fetch tag w).2.
Proof.
  unfold _fetch. destruct w as [d fs tr]. simpl.
  assert (Hres : ∀ fs' tr0,
    extends (λ t, t = tag) {| db := d; faults := fs; trace := tr |}
            {| db := d; faults := fs'; trace := tr0 |} →
    extends (λ t, t = tag) {| db := d; faults := fs; trace := tr |}
      (let (r, d') := on_results tag (tag_index tag) d in
       (r, {| db := d'; faults := fs';
              trace := tr0 ++ [Call (TagIndex tag)] |})).2).
  { intros fs' tr0 (_ & ext & He & Ha).
    pose proof (on_results_subseteq tag (tag_index tag) d) as Hs.
    destruct (on_results tag (tag_index tag) d) as [r d']. simpl in *.
    split; [done|]. exists (ext ++ [Call (TagIndex tag)]).
    rewrite He, <- app_assoc. split; [done|].
    rewrite tag_calls_app. apply Forall_app. split; [done|]. by repeat constructor. }
  assert (Hgen : ∀ fs0 tr0,
    extends (λ t, t = tag) {| db := d; faults := fs; trace := tr |}
            {| db := d; faults := fs0; trace := tr0 |} →
    extends (λ t, t = tag) {| db := d; faults := fs; trace := tr |}
            (_fetch_from tag fs0 d tr0).2).
  { induction fs0 as [|reply fs0 IH]; intros tr0 H0; simpl.
    - destruct (select_type d tag); [done|]. by apply Hres.
    - destruct (select_type d tag); [done|].
      destruct reply as [u|]; [|by apply (Hres fs0)].
      apply IH. destruct H0 as (_ & ext & He & Ha). split; [done|].
      exists (ext ++ [Call (TagIndex tag); Sleep (tag_retry u)]). simpl in *.
      rewrite He, <- !app_assoc. split; [done|].
      rewrite tag_calls_app. apply Forall_app. split; [done|]. by repeat constructor. }
  apply Hgen, extends_refl.
Qed.

Lemma fetch_extends tf w : extends (λ t, t = tf_tag tf) w (fetch tf w).2.
Proof.
  unfold fetch.
  pose proof (_fetch_extends (tf_tag tf) (emit Acquire w)) as H.
  destruct (_fetch (tf_tag tf) (emit Acquire w)) as [[td|e] w']; simpl in *;
    (apply (extends_trans _ _ (emit Acquire w)); [by apply extends_emit|]);
    (apply (extends_trans _ _ w'); [exact H|by apply extends_emit]).
Qed.

Lemma wait_extends tfs w :
  extends (λ t, t ∈ map tf_tag tfs) w (wait tfs w).2.
Proof.
  revert w. induction tfs as [|tf rest IH]; intros w; simpl; [apply extends_refl|].
  pose proof (fetch_extends tf w) as H1.
  destruct (fetch tf w) as [tf' w1]. simpl in *.
  pose proof (IH w1) as H2. destruct (wait rest w1) as [rest' w2]. simpl in *.
  eapply extends_trans.
  - eapply extends_mono; [|exact H1]. intros t ->. apply list_elem_of_here.
  - eapply extends_mono; [|exact H2]. intros t Ht. by apply list_elem_of_further.
Qed.

Lemma process_rawpost_extends rawpost w :
  extends (λ t, t ∈ split " " (raw_tags_str rawpost)) w (process_rawpost rawpost w).2.
Proof.
  unfold process_rawpost.
  pose proof (wait_extends (tag_fetchers_of (add_fixed_tags (Post_init rawpost))) w) as H.
  destruct (wait _ w) as [tfs w1]. simpl in *.
  apply (extends_trans _ _ w1); [|by apply extends_emit].
  eapply extends_mono; [|exact H]. intros t Ht.
  unfold tag_fetchers_of in Ht. rewrite map_map in Ht. simpl in Ht.
  by rewrite map_id in Ht.
Qed.

Lemma process_res_extends res w :
  extends (λ t, t ∈ res ≫= λ rawpost, split " " (raw_tags_str rawpost))
          w (process_res res w).2.
Proof.
  revert w. induction res as [|rawpost rest IH]; intros w; simpl; [apply extends_refl|].
  pose proof (process_rawpost_extends rawpost w) as H1.
  destruct (process_rawpost rawpost w) as [post w1]. simpl in *.
  pose proof (IH w1) as H2. destruct (process_res rest w1) as [posts w2]. simpl in *.
  eapply extends_trans.
  - eapply extends_mono; [|exact H1]. intros t Ht. apply elem_of_app. by left.
  - eapply extends_mono; [|exact H2]. intros t Ht. apply elem_of_app. by right.
Qed.

Lemma fetch_page_extends page w :
  extends (λ t, t ∈ page_tags page) w (fetch_page page w).2.
Proof.
  unfold fetch_page. destruct w as [d fs tr]. simpl.
  assert (Hgen : ∀ fs0 tr0,
    extends (λ t, t ∈ page_tags page) {| db := d; faults := fs; trace := tr |}
            {| db := d; faults := fs0; trace := tr0 |} →
    extends (λ t, t ∈ page_tags page) {| db := d; faults := fs; trace := tr |}
            (fetch_page_from page fs0 d tr0).2).
  { assert (Hres : ∀ fs' tr0,
      extends (λ t, t ∈ page_tags page) {| db := d; faults := fs; trace := tr |}
              {| db := d; faults := fs'; trace := tr0 |} →
      extends (λ t, t ∈ page_tags page) {| db := d; faults := fs; trace := tr |}
        (let (posts, w) :=
           process_res (post_index page)
             {| db := d; faults := fs'; trace := tr0 ++ [Call (PostIndex page)] |} in
         (posts, emit DbCommit w)).2).
    { intros fs' tr0 H0.
      pose proof (process_res_extends (post_index page)
        {| db := d; faults := fs'; trace := tr0 ++ [Call (PostIndex page)] |}) as H.
      destruct (process_res _ _) as [posts w1]. simpl in *.
      eapply extends_trans; [exact H0|].
      eapply extends_trans;
        [apply (extends_emit _ (Call (PostIndex page))
                  {| db := d; faults := fs'; trace := tr0 |}); done|].
      apply (extends_trans _ _ w1); [exact H|by apply extends_emit]. }
    induction fs0 as [|reply fs0 IH]; intros tr0 H0; simpl.
    - by apply Hres.
    - destruct reply as [u|]; [|by apply (Hres fs0)].
      apply IH. destruct H0 as (_ & ext & He & Ha). split; [done|].
      exists (ext ++ [Call (PostIndex page); Sleep (page_retry u)]). simpl in *.
      rewrite He, <- !app_assoc. split; [done|].
      rewrite tag_calls_app. apply Forall_app. split; [done|]. by repeat constructor. }
  apply Hgen, extends_refl.
Qed.

(** X10. Fetching a page only adds to the database: a tag that was known
    keeps the type it had, however the tag index answers meanwhile. *)
Theorem fetch_page_keeps_known page w tag k :
  db w !! tag = Some k → db (fetch_page page w).2 !! tag = Some k.
Proof.
  intros Hk. destruct (fetch_page_extends page w) as [Hsub _].
  by eapply lookup_weaken.
Qed.

(** X11. While it fetches a page, the program asks the tag index only
    about raw tags of posts on that page. *)
Theorem fetch_page_asks_page_tags page w :
  ∃ ext,
    trace (fetch_page page w).2 = trace w ++ ext
    ∧ Forall (λ t, t ∈ page_tags page) (tag_calls ext).
Proof. by destruct (fetch_page_extends page w) as [_ H]. Qed.

End PageChains.

Lemma fetch_page_keeps_known_witness :
  db (fetch_page (env := demo_env) 0 flaky).2 !! "b" = Some 0.
Proof. by apply (fetch_page_keeps_known (env := demo_env) 0 flaky "b" 0). Defined.

Section PostFacts.

Context {env : Env}.

Lemma process_res_each res w :
  Forall2 (λ rawpost post, ∃ w0, post = (process_rawpost rawpost w0).1)
          res (process_res res w).1.
Proof.
  revert w. induction res as [|rawpost rest IH]; intros w; simpl; [constructor|].
  destruct (process_rawpost rawpost w) as [post w1] eqn:E.
  specialize (IH w1). destruct (process_res rest w1) as [posts w2]. simpl in *.
  constructor; [|done]. exists w. by rewrite E.
Qed.

(** Every post of a page is made from its entry of the answer by the body
    of the loop of [fetch_page]. *)
Lemma fetch_page_each page w :
  Forall2 (λ rawpost post, ∃ w0, post = (process_rawpost rawpost w0).1)
          (post_index page) (fetch_page page w).1.
Proof.
  unfold fetch_page. destruct w as [d fs tr]. simpl. revert tr.
  assert (Hres : ∀ fs' tr0,
    Forall2 (λ rawpost post, ∃ w0, post = (process_rawpost rawpost w0).1)
      (post_index page)
      (let (posts, w) :=
         process_res (post_index page) {| db := d; faults := fs'; trace := tr0 |} in
       (posts, emit DbCommit w)).1).
  { intros fs' tr0.
    pose proof (process_res_each (post_index page)
                  {| db := d; faults := fs'; trace := tr0 |}) as H.
    by destruct (process_res _ _). }
  induction fs as [|reply fs IH]; intros tr; simpl; [apply Hres|].
  destruct reply as [u|]; [apply IH|apply Hres].
Qed.

(** The last loop changes the tags of a post and nothing else. *)
Lemma foldl_add_resolved_tags tfs post :
  post_tags (foldl add_resolved post tfs)
  = post_tags post
    ++ (tfs ≫= λ tf, match tf_result tf with
                     | None => []
                     | Some tag_data =>
                         namespaced_tag (name tag_data) (Some (tag_type tag_data))
                     end)
  ∧ post_id (foldl add_resolved post tfs) = post_id post
  ∧ post_raw_tags (foldl add_resolved post tfs) = post_raw_tags post
  ∧ post_timestamp (foldl add_resolved post tfs) = post_timestamp post
  ∧ post_hash (foldl add_resolved post tfs) = post_hash post
  ∧ post_url (foldl add_resolved post tfs) = post_url post
  ∧ post_author (foldl add_resolved post tfs) = post_author post.
Proof.
  revert post. induction tfs as [|tf rest IH]; intros post; simpl.
  - by rewrite app_nil_r.
  - destruct (IH (add_resolved post tf)) as (-> & -> & -> & -> & -> & -> & ->).
    unfold add_resolved, namespaced_tag. destruct (tf_result tf) as [td|]; [|done].
    destruct (NAMESPACES !! tag_type td) as [ns|]; [|done].
    destruct (String.eqb ns ""); [done|]. simpl. by rewrite <- app_assoc.
Qed.

(** A fetcher that comes back with a result comes back with its own tag. *)
Lemma wait_results tfs w :
  Forall (λ tf, tf_result tf = None) tfs →
  Forall2 (λ tf tf', tf_tag tf' = tf_tag tf
                     ∧ ∀ tag_data, tf_result tf' = Some tag_data →
                                   name tag_data = tf_tag tf)
          tfs (wait tfs w).1.
Proof.
  intros Hnone. revert w. induction Hnone as [|tf rest Hn _ IH]; intros w; simpl;
    [constructor|].
  unfold fetch. destruct (_fetch (tf_tag tf) (emit Acquire w)) as [[td|e] w'] eqn:E.
  - specialize (IH (emit Release w')). destruct (wait rest _) as [rest' w2].
    simpl in *. constructor; [|done]. simpl. split; [done|].
    intros td' [= <-]. by apply _fetch_stored in E as [? _].
  - specialize (IH (emit Release w')). destruct (wait rest _) as [rest' w2].
    simpl in *. constructor; [|done]. split; [done|]. by rewrite Hn.
Qed.

Lemma resolved_tags_zip (tags : list string) (tfs : list TagFetcher) :
  Forall2 (λ tag tf', tf_tag tf' = tag
                      ∧ ∀ tag_data, tf_result tf' = Some tag_data →
                                    name tag_data = tag)
          tags tfs →
  (tfs ≫= λ tf, match tf_result tf with
                | None => []
                | Some tag_data =>
                    namespaced_tag (name tag_data) (Some (tag_type tag_data))
                end)
  = concat (zip_with namespaced_tag tags (map (λ tf, tag_type <$> tf_result tf) tfs)).
Proof.
  induction 1 as [|tag tf tags tfs [_ Hn] _ IH]; simpl; [done|].
  rewrite <- IH. f_equal. destruct (tf_result tf) as [td|]; [|done].
  simpl. by rewrite (Hn td eq_refl).
Qed.

(** X12. The tags of a post that [fetch_page] returns are, in this order:
    the raw tags of its entry, the four fixed tags, and for every raw tag
    in turn at most one tag more, the raw tag behind the namespace of the
    type its fetcher came back with; nothing for a type without a
    namespace or with an empty one. *)
Theorem fetch_page_enriched_tags page w :
  Forall2
    (λ rawpost post,
       ∃ types : list (option Z),
         length types = length (split " " (raw_tags_str rawpost))
         ∧ post_tags post =
             split " " (raw_tags_str rawpost)
             ++ ["hypnosis"; "booru:hypnohub"; ("md5:" ++ raw_md5 rawpost)%string;
                 ("id:" ++ pretty (raw_id rawpost))%string]
             ++ concat (zip_with namespaced_tag (split " " (raw_tags_str rawpost)) types))
    (post_index page) (fetch_page page w).1.
Proof.
  eapply Forall2_impl; [apply fetch_page_each|].
  intros rawpost post [w0 ->]. unfold process_rawpost.
  pose proof (wait_results (tag_fetchers_of (add_fixed_tags (Post_init rawpost))) w0) as Hw.
  destruct (wait _ w0) as [tfs w1]. simpl in *.
  assert (Hz : Forall2 (λ tag tf', tf_tag tf' = tag
                          ∧ ∀ tag_data, tf_result tf' = Some tag_data →
                                        name tag_data = tag)
                 (split " " (raw_tags_str rawpost)) tfs).
  { assert (Hnone : Forall (λ tf, tf_result tf = None)
                      (tag_fetchers_of (add_fixed_tags (Post_init rawpost)))).
    { unfold tag_fetchers_of. apply Forall_forall. intros tf Hin.
      apply list_elem_of_In, in_map_iff in Hin as (t & <- & _). done. }
    specialize (Hw Hnone). unfold tag_fetchers_of in Hw. simpl in Hw.
    clear Hnone. revert tfs Hw.
    induction (split " " (raw_tags_str rawpost)) as [|t ts IH]; intros tfs Hw;
      simpl in Hw.
    - apply Forall2_nil_inv_l in Hw as ->. constructor.
    - apply Forall2_cons_inv_l in Hw as (tf' & tfs' & [H1 H2] & Hrest & ->).
      constructor; [done|by apply IH]. }
  exists (map (λ tf, tag_type <$> tf_result tf) tfs). split.
  - rewrite length_map. symmetry. by eapply Forall2_length.
  - destruct (foldl_add_resolved_tags tfs (add_fixed_tags (Post_init rawpost)))
      as (-> & _). rewrite (resolved_tags_zip _ _ Hz). simpl.
    by rewrite <- !app_assoc.
Qed.

(** X13. [fetch_page] returns one post for every entry of the answer, in
    the order of the answer, and copies id, raw tags, timestamp, hash, url
    and author from the entry, whatever happens to the tags. *)
Theorem fetch_page_in_order page w :
  Forall2
    (λ rawpost post,
       post_id post = raw_id rawpost
       ∧ post_raw_tags post = split " " (raw_tags_str rawpost)
       ∧ post_timestamp post = raw_created_at rawpost
       ∧ post_hash post = raw_md5 rawpost
       ∧ post_url post = raw_file_url rawpost
       ∧ post_author post = raw_author rawpost)
    (post_index page) (fetch_page page w).1.
Proof.
  eapply Forall2_impl; [apply fetch_page_each|].
  intros rawpost post [w0 ->]. unfold process_rawpost.
  destruct (wait _ w0) as [tfs w1]. simpl.
  by destruct (foldl_add_resolved_tags tfs (add_fixed_tags (Post_init rawpost)))
    as (_ & -> & -> & -> & -> & -> & ->).
Qed.

End PostFacts.

(** * Further properties of the commands *)


Lemma wanted_none until_id (ids : list Z) :
  Forall (λ i, i < until_id) ids → filter (λ i, i >= until_id) ids = [].
Proof.
  induction 1 as [|i ids Hi _ IH]; [done|].
  rewrite filter_cons_False by lia. done.
Qed.

Section CommandFacts.

Context {env : Env}.



(** X15. [c_fetch_pages] with an end before the start raises the
    [ValueError] of [asyncio.wait] for an empty set, before any request
    and with nothing written. *)
Theorem fetch_pages_empty_range start end_ w :
  end_ < start → c_fetch_pages start end_ w = (Raise ValueError, w).
Proof.
  intros Hlt. unfold c_fetch_pages, fetch_pages. by rewrite seqZ_nil by lia.
Qed.


(** X17. On a catalog whose ids do not rise from one page to a later one,
    the until-id crawl misses nothing: what it keeps are exactly the posts
    of the whole catalog with an id not below the target. *)
Theorem fetch_until_complete until_id (k fuel : nat) w :
  (∀ j : nat, (j < k)%nat →
     Forall (λ i, i >= until_id) (page_ids (Z.of_nat j))) →
  Exists (λ i, i < until_id) (page_ids (Z.of_nat k)) →
  (∀ (p q : nat) a b, (p < q)%nat →
     a ∈ page_ids (Z.of_nat p) → b ∈ page_ids (Z.of_nat q) → b ≤ a) →
  (k < fuel)%nat →
  ∃ final_posts w1,
    fetch_until_loop fuel until_id 0 [] w = (Some final_posts, w1)
    ∧ ∀ n : nat, (k ≤ n)%nat →
        map post_id final_posts
        = filter (λ i, i >= until_id) (seqZ 0 (Z.of_nat n + 1) ≫= page_ids).
Proof.
  intros Hbefore Hat Hdesc Hfuel.
  rewrite (fetch_until_loop_stops k fuel until_id 0 [] w Hfuel); [| |done].
  2: { intros j Hj. by apply Hbefore. }
  eexists _, _. split; [reflexivity|]. intros n Hn. simpl.
  destruct (gather_pages_spec (seqZ 0 (Z.of_nat k + 1)) w) as (Hids & _).
  rewrite wanted_ids, Hids.
  replace (Z.of_nat n + 1) with ((Z.of_nat k + 1) + Z.of_nat (n - k)) by lia.
  rewrite (seqZ_app 0 (Z.of_nat k + 1) (Z.of_nat (n - k))), bind_app, filter_app by lia.
  rewrite (wanted_none until_id (seqZ _ (Z.of_nat (n - k)) ≫= page_ids)).
  { by rewrite app_nil_r. }
  apply Exists_exists in Hat as (x & Hx & Hlt).
  apply Forall_forall. intros b Hb.
  apply list_elem_of_bind in Hb as (q & Hb & Hq).
  apply elem_of_seqZ in Hq.
  replace q with (Z.of_nat (Z.to_nat q)) in Hb by lia.
  assert (b ≤ x); [|lia].
  apply (Hdesc k (Z.to_nat q) x b); [lia|done|done].
Qed.


End CommandFacts.

Lemma fetch_pages_empty_range_witness :
  c_fetch_pages (env := demo_env) 3 1 cold = (Raise ValueError, cold).
Proof. apply (fetch_pages_empty_range (env := demo_env) 3 1 cold). lia. Defined.


Lemma fetch_until_complete_witness :
  ∃ final_posts w1,
    fetch_until_loop (env := boundary_env) 1 95 0 [] cold = (Some final_posts, w1)
    ∧ map post_id final_posts
      = filter (λ i, i >= 95) (seqZ 0 3 ≫= page_ids (env := boundary_env)).
Proof.
  destruct (fetch_until_complete (env := boundary_env) 95 0 1 cold)
    as (final_posts & w1 & Hrun & Hall).
  - intros j Hj. lia.
  - vm_compute. apply Exists_cons_tl, Exists_cons_tl, Exists_cons_tl, Exists_cons_tl,
      Exists_cons_tl, Exists_cons_tl, Exists_cons_hd. reflexivity.
  - intros p q a b Hpq Ha Hb. unfold page_ids in *.
    cbn [post_index boundary_env] in *.
    repeat case_decide; try lia;
      repeat match goal with
      | H : _ ∈ map _ [] |- _ => apply elem_of_nil in H; destruct H
      | H : _ ∈ map _ _ |- _ =>
          apply list_elem_of_In, in_map_iff in H as (? & <- & H);
          apply list_elem_of_In, list_elem_of_fmap in H as (? & -> & H);
          apply elem_of_seqZ in H
      end; simpl; lia.
  - lia.
  - exists final_posts, w1. split; [exact Hrun|]. exact (Hall 2%nat ltac:(lia)).
Defined.

(** * Further properties: the hash as bytes *)

Lemma hex_digit_bound c h : hex_digit c = Some h → (h < 16)%N.
Proof.
  unfold hex_digit.
  destruct (48 <=? N_of_ascii c)%N eqn:E1, (N_of_ascii c <=? 57)%N eqn:E2; simpl;
    try (intros [= <-]; apply N.leb_le in E1, E2; lia);
    destruct (97 <=? N_of_ascii c)%N eqn:E3, (N_of_ascii c <=? 102)%N eqn:E4; simpl;
    try (intros [= <-]; apply N.leb_le in E3, E4; lia);
    destruct (65 <=? N_of_ascii c)%N eqn:E5, (N_of_ascii c <=? 70)%N eqn:E6; simpl;
    try done; intros [= <-]; apply N.leb_le in E5, E6; lia.
Qed.

Lemma hex_digit_char n : (n < 16)%N → hex_digit (hex_char n) = Some n.
Proof.
  intros Hn.
  assert (H : n ∈ [0; 1; 2; 3; 4; 5; 6; 7; 8; 9; 10; 11; 12; 13; 14; 15]%N).
  { assert (Hnat : (N.to_nat n < 16)%nat) by lia.
    rewrite <- (N2Nat.id n). generalize dependent (N.to_nat n). intros m Hm.
    do 16 (destruct m as [|m]; [apply list_elem_of_In; simpl; tauto|]). lia. }
  repeat (apply elem_of_cons in H as [->|H]; [reflexivity|]).
  by apply elem_of_nil in H.
Qed.

Lemma unhexlify_cons s byte bytes :
  unhexlify s = Some (byte :: bytes) →
  ∃ c1 c2 rest high low,
    s = String c1 (String c2 rest)
    ∧ hex_digit c1 = Some high ∧ hex_digit c2 = Some low
    ∧ byte = (16 * high + low)%N ∧ unhexlify rest = Some bytes.
Proof.
  destruct s as [|c1 [|c2 rest]]; simpl; try done.
  destruct (hex_digit c1) as [high|] eqn:E1; [|done].
  destruct (hex_digit c2) as [low|] eqn:E2; [|done].
  destruct (unhexlify rest) as [bs|] eqn:E3; [|done].
  intros [= <- <-]. by exists c1, c2, rest, high, low.
Qed.

Lemma unhexlify_nil s : unhexlify s = Some [] → s = EmptyString.
Proof.
  destruct s as [|c1 [|c2 rest]]; simpl; try done.
  destruct (hex_digit c1), (hex_digit c2), (unhexlify rest); done.
Qed.

(** A hash with an odd number of characters does not decode. *)
Lemma bhash_odd post :
  Nat.odd (String.length (post_hash post)) = true → bhash post = Raise ValueError.
Proof.
  unfold bhash. destruct (unhexlify (post_hash post)) as [bs|] eqn:E; [|done].
  intros Hodd. exfalso. revert E Hodd. generalize (post_hash post).
  induction bs as [|byte bs IH]; intros s E.
  - by apply unhexlify_nil in E as ->.
  - apply unhexlify_cons in E as (c1 & c2 & rest & high & low & -> & _ & _ & _ & E).
    simpl. change (Nat.odd (S (S (String.length rest))))
      with (Nat.odd (String.length rest)). by apply IH.
Qed.

(** X19. When the hash of a post decodes, it has two characters for every
    byte of the result, and every byte is below 256. *)
Theorem bhash_bytes post bytes :
  bhash post = Ok bytes →
  String.length (post_hash post) = (2 * length bytes)%nat
  ∧ Forall (λ byte, (byte < 256)%N) bytes.
Proof.
  unfold bhash. destruct (unhexlify (post_hash post)) as [bs|] eqn:E; [|done].
  intros [= <-]. revert E. generalize (post_hash post).
  induction bs as [|byte bs IH]; intros s E.
  - by apply unhexlify_nil in E as ->.
  - apply unhexlify_cons in E as (c1 & c2 & rest & high & low & -> & H1 & H2 & -> & E).
    destruct (IH rest E) as [Hl Hb]. split; [simpl; lia|].
    constructor; [|done]. apply hex_digit_bound in H1, H2. lia.
Qed.

(** X20. Decoding undoes the usual spelling of bytes: the hash that spells
    a digest in lower-case hexadecimal decodes to the digest. *)
Theorem bhash_hexlify post bytes :
  Forall (λ byte, (byte < 256)%N) bytes →
  post_hash post = hexlify bytes →
  bhash post = Ok bytes.
Proof.
  intros Hb Hh. unfold bhash. rewrite Hh. clear Hh.
  assert (H : unhexlify (hexlify bytes) = Some bytes); [|by rewrite H].
  induction Hb as [|byte bytes Hbyte _ IH]; simpl; [done|].
  rewrite !hex_digit_char, IH.
  - do 2 f_equal. pose proof (N.div_mod byte 16). lia.
  - apply N.mod_lt. lia.
  - apply N.Div0.div_lt_upper_bound. lia.
Qed.

(** X21. When the hash of every post decodes, [process_hta] with the
    hashes decoded does what [process_hta] does: one whole batch. *)
Theorem process_hta_decoding_ok posts w :
  Forall (λ post, ∃ bytes, bhash post = Ok bytes) posts →
  process_hta_decoding posts w = (Ok tt, process_hta posts w).
Proof.
  unfold process_hta_decoding, process_hta.
  intros Hall. generalize (emit BeginBigJob w). clear w.
  induction Hall as [|post posts [bytes Hb] _ IH]; intros w; simpl; [done|].
  rewrite Hb. apply IH.
Qed.

(** X22. When the hash of a post does not decode, [process_hta] raises at
    this post: the job is begun, the posts before it have their mappings,
    and the job is never committed. *)
Theorem process_hta_decoding_raises before bad after w :
  Forall (λ post, ∃ bytes, bhash post = Ok bytes) before →
  bhash bad = Raise ValueError →
  ∃ w', process_hta_decoding (before ++ bad :: after) w = (Raise ValueError, w')
        ∧ trace w' = trace w ++ BeginBigJob
            :: map (λ post, AddMappings (post_hash post) (post_tags post)) before.
Proof.
  unfold process_hta_decoding. intros Hall Hbad.
  assert (H : ∀ w0, add_mappings (before ++ bad :: after) w0 =
    (Raise ValueError,
     {| db := db w0; faults := faults w0;
        trace := trace w0
                 ++ map (λ post, AddMappings (post_hash post) (post_tags post)) before |})).
  { induction Hall as [|post before [bytes Hb] _ IH]; intros w0; simpl.
    - rewrite Hbad, app_nil_r. by destruct w0.
    - rewrite Hb, IH. simpl. by rewrite <- app_assoc. }
  rewrite H. eexists. split; [done|]. simpl. by rewrite <- app_assoc.
Qed.

Lemma bhash_bytes_witness :
  let post := Post_init (demo_post 10 "ab" "900150983cd24fb0d6963f7d28e17f72") in
  String.length (post_hash post) = 32%nat
  ∧ ∃ bytes, bhash post = Ok bytes
             ∧ String.length (post_hash post) = (2 * length bytes)%nat
             ∧ Forall (λ byte, (byte < 256)%N) bytes.
Proof.
  split; [reflexivity|]. eexists. split; [reflexivity|].
  by apply (bhash_bytes (Post_init (demo_post 10 "ab" "900150983cd24fb0d6963f7d28e17f72"))).
Defined.

Lemma bhash_hexlify_witness :
  bhash (Post_init (demo_post 1 "" "00ff10")) = Ok [0; 255; 16]%N.
Proof.
  apply (bhash_hexlify (Post_init (demo_post 1 "" "00ff10")) [0; 255; 16]%N).
  - repeat constructor.
  - reflexivity.
Defined.

Lemma process_hta_decoding_ok_witness :
  process_hta_decoding (fetch_page (env := demo_env) 0 cold).1 cold
  = (Ok tt, process_hta (fetch_page (env := demo_env) 0 cold).1 cold).
Proof.
  apply process_hta_decoding_ok.
  repeat constructor; eexists; reflexivity.
Defined.

Lemma process_hta_decoding_raises_witness :
  ∃ w',
    process_hta_decoding
      ((fetch_page (env := demo_env) 1 cold).1
       ++ [Post_init (demo_post 9 "ab" "900150983cd24fb0d6963f7d28e17f7")])
      cold
    = (Raise ValueError, w')
    ∧ sink_events (trace w') =
        [BeginBigJob;
         AddMappings "900150983cd24fb0d6963f7d28e17f72"
           ["ab"; "hypnosis"; "booru:hypnohub";
            "md5:900150983cd24fb0d6963f7d28e17f72"; "id:10"; "character:ab"]].
Proof.
  destruct (process_hta_decoding_raises
              (fetch_page (env := demo_env) 1 cold).1
              (Post_init (demo_post 9 "ab" "900150983cd24fb0d6963f7d28e17f7")) [] cold)
    as (w' & Hrun & Htr).
  - repeat constructor; eexists; reflexivity.
  - by apply bhash_odd.
  - exists w'. split; [exact Hrun|]. rewrite Htr. reflexivity.
Defined.

(** * Further properties: the command line *)

Section ClientFacts.

Context {env : Env}.

Variable py_int : string → option Z.

Lemma of_outcome_no_shutdown r status w :
  of_outcome r ≠ (Raises (ShutdownClient status), w).
Proof. destruct r as [[[[]|e]|] w0]; simpl; congruence. Qed.

(** Only the handlers of [exit] and [quit] raise [ShutdownClient], and
    they touch nothing. *)
Lemma handler_shutdown fuel command args w status w' :
  handler py_int fuel command args w = Some (Raises (ShutdownClient status), w') →
  (command = "exit" ∨ command = "quit") ∧ status = c_exit py_int args ∧ w' = w.
Proof.
  unfold handler.
  destruct (String.eqb command "exit") eqn:E1.
  { apply String.eqb_eq in E1. intros [= <- <-]. auto. }
  destruct (String.eqb command "quit") eqn:E2.
  { apply String.eqb_eq in E2. intros [= <- <-]. auto. }
  destruct (String.eqb command "commit"); [done|].
  destruct (String.eqb command "fetch_latest"); [done|].
  destruct (String.eqb command "fetch_pages").
  { destruct (int_arg py_int args 1); [|done].
    destruct (int_arg py_int args 2); [|done].
    by destruct (c_fetch_pages _ _ w) as [[[]|e] w1]. }
  destruct (String.eqb command "fetch_until").
  { destruct (int_arg py_int args 1); [|done].
    intros [= H]. by apply of_outcome_no_shutdown in H. }
  destruct (String.eqb command "fetch_all").
  { intros [= H]. by apply of_outcome_no_shutdown in H. }
  destruct (String.eqb command "loop"); [|done].
  intros [= H]. by apply of_outcome_no_shutdown in H.
Qed.

(** X23. A line whose command is [exit] or [quit] shuts the client down
    with the status that its first argument spells, and with 0 when the
    argument is missing or spells no number. A running client commits the
    database, closes its session, stops running and exits with the
    status; a client that is not running, as one that was never
    initialised, only logs a warning and returns. *)
Theorem exit_shuts_down fuel line c :
  hd EmptyString (split " " line) = "exit" ∨ hd EmptyString (split " " line) = "quit" →
  process_line py_int fuel line c =
    if _running c
    then (Exited (c_exit py_int (split " " line)),
          {| world := emit DbCommit (world c); _running := false;
             session_open := false; log := log c |})
    else (Returned, add_log ShutdownTwice c).
Proof.
  intros Hcmd. unfold process_line, handler, c_quit, shutdown.
  destruct Hcmd as [-> | ->]; simpl; by destruct c as [w [] so lg].
Qed.

(** X24. Nothing but [exit] and [quit] ends the process: when
    [process_line] exits, the command was one of the two, the client was
    running, the database was committed as the last thing, and the
    client is left stopped with its session closed. *)
Theorem only_exit_ends_process fuel line c code c' :
  process_line py_int fuel line c = (Exited code, c') →
  (hd EmptyString (split " " line) = "exit" ∨ hd EmptyString (split " " line) = "quit")
  ∧ _running c = true
  ∧ code = c_exit py_int (split " " line)
  ∧ _running c' = false ∧ session_open c' = false
  ∧ trace (world c') = trace (world c) ++ [DbCommit]
  ∧ db (world c') = db (world c).
Proof.
  unfold process_line.
  destruct (handler py_int fuel _ _ (world c)) as [[h w]|] eqn:E; [|done].
  destruct h as [|r|]; try done. destruct r as [e| |status]; try done.
  apply handler_shutdown in E as (Hcmd & -> & ->).
  unfold shutdown. simpl. destruct (_running c) eqn:Hr; [|done].
  intros [= <- <-]. by simpl.
Qed.

(** X25. A command that names no handler changes nothing: the line is
    logged as not found, the call of the handler that was never bound is
    logged as an error, and [process_line] returns. *)
Theorem unknown_command_logged fuel line c :
  hd EmptyString (split " " line)
    ∉ ["exit"; "quit"; "commit"; "fetch_latest"; "fetch_pages"; "fetch_until";
       "fetch_all"; "loop"] →
  process_line py_int fuel line c =
    (Returned,
     {| world := world c; _running := _running c; session_open := session_open c;
        log := log c ++ [CommandNotFound (hd EmptyString (split " " line));
                         ErrorExecuting UnboundLocalError] |}).
Proof.
  intros Hnot. unfold process_line, handler.
  repeat match goal with
  | |- context [String.eqb ?a ?b] =>
      destruct (String.eqb a b) eqn:?E;
      [apply String.eqb_eq in E; exfalso; apply Hnot; rewrite E;
       apply list_elem_of_In; simpl; tauto|clear E]
  end.
  unfold add_log. simpl. by rewrite <- app_assoc.
Qed.

(** X26. A handler that fails does not take the client down. The crawl
    until an id that keeps no post raises [IndexError] in the handler;
    [process_line] logs it and returns, the client is as it was but for
    the pages fetched, and the archive is told nothing. *)
Theorem failed_crawl_is_logged fuel line arg until_id (k : nat) c :
  split " " line = ["fetch_until"; arg] →
  py_int arg = Some until_id →
  (∀ j : nat, (j < k)%nat →
     Forall (λ i, i >= until_id) (page_ids (Z.of_nat j))) →
  Exists (λ i, i < until_id) (page_ids (Z.of_nat k)) →
  (k < fuel)%nat →
  let fetched := gather_pages (seqZ 0 (Z.of_nat k + 1)) (world c) in
  filter (λ post, post_id post >= until_id) fetched.1 = [] →
  process_line py_int fuel line c =
    (Returned,
     {| world := fetched.2; _running := _running c; session_open := session_open c;
        log := log c ++ [ErrorExecuting (Exception IndexError)] |})
  ∧ sink_events (trace fetched.2) = sink_events (trace (world c)).
Proof.
  intros Hargs Hint Hbefore Hat Hfuel fetched Hnil. split.
  - unfold process_line, handler. rewrite Hargs. simpl.
    unfold int_arg. simpl. rewrite Hint. unfold c_fetch_until.
    rewrite (fetch_until_loop_stops k fuel until_id 0 [] (world c) Hfuel); [| |done].
    + fold fetched. simpl. by rewrite Hnil.
    + intros j Hj. by apply Hbefore.
  - destruct (gather_pages_spec (seqZ 0 (Z.of_nat k + 1)) (world c))
      as (_ & ext & retries & He & _ & _ & Hs).
    fold fetched in He. by rewrite He, sink_events_app, Hs, app_nil_r.
Qed.

(** X27. Unless it exits, [process_line] leaves the client running or not
    as it found it and its session as it was, whatever the command and
    however it fails. *)
Theorem process_line_keeps_state fuel line c :
  match (process_line py_int fuel line c).1 with
  | Exited _ => True
  | _ =>
      _running (process_line py_int fuel line c).2 = _running c
      ∧ session_open (process_line py_int fuel line c).2 = session_open c
  end.
Proof.
  unfold process_line.
  destruct (handler py_int fuel _ _ (world c)) as [[h w]|]; [|done].
  destruct h as [|r|]; try done. destruct r as [e| |status]; try done.
  unfold shutdown. destruct c as [w0 [] so lg]; simpl; done.
Qed.

End ClientFacts.

Lemma exit_shuts_down_witness :
  process_line (env := demo_env) demo_int 1 "quit 3" (init (new_client cold))
  = (Exited 3,
     {| world := emit DbCommit cold; _running := false; session_open := false;
        log := [] |})
  ∧ process_line (env := demo_env) demo_int 1 "exit" (new_client cold)
    = (Returned, add_log ShutdownTwice (new_client cold)).
Proof.
  split.
  - rewrite (exit_shuts_down (env := demo_env) demo_int 1 "quit 3"
               (init (new_client cold))); [reflexivity|]. by right.
  - rewrite (exit_shuts_down (env := demo_env) demo_int 1 "exit" (new_client cold));
      [reflexivity|]. by left.
Defined.

Lemma only_exit_ends_process_witness :
  c_exit demo_int (split " " "exit x") = 0
  ∧ _running (process_line (env := demo_env) demo_int 1 "exit x"
                (init (new_client cold))).2 = false.
Proof.
  destruct (only_exit_ends_process (env := demo_env) demo_int 1 "exit x"
              (init (new_client cold)) 0 _ eq_refl) as (_ & _ & _ & H & _).
  split; [reflexivity|exact H].
Defined.

Lemma unknown_command_logged_witness :
  process_line (env := demo_env) demo_int 1 "fetch latest" (init (new_client cold))
  = (Returned,
     {| world := cold; _running := true; session_open := true;
        log := [CommandNotFound "fetch"; ErrorExecuting UnboundLocalError] |}).
Proof.
  rewrite (unknown_command_logged (env := demo_env) demo_int 1 "fetch latest"
             (init (new_client cold))); [reflexivity|].
  intros H. apply list_elem_of_In in H. simpl in H.
  repeat destruct H as [H|H]; try discriminate H. exact H.
Defined.

Lemma failed_crawl_is_logged_witness :
  ∃ w',
    process_line (env := demo_env) demo_int 1 "fetch_until 100" (init (new_client cold))
    = (Returned,
       {| world := w'; _running := true; session_open := true;
          log := [ErrorExecuting (Exception IndexError)] |})
    ∧ sink_events (trace w') = [].
Proof.
  destruct (failed_crawl_is_logged (env := demo_env) demo_int 1 "fetch_until 100"
              "100" 100 0 (init (new_client cold))) as [H1 H2].
  - reflexivity.
  - reflexivity.
  - intros j Hj. lia.
  - vm_compute. apply Exists_cons_hd. reflexivity.
  - lia.
  - reflexivity.
  - eexists. split; [exact H1|exact H2].
Defined.

Section LoopFacts.

Context {env : Env}.



End LoopFacts.
